(** * Dictated-email normaliser: [formatEmailText] and [validateEmail]

    A shallow embedding of [src/api/parse-email.js] (the handler's core
    functions, lines 7-80) together with the properties stated about it.

    JavaScript strings are sequences of UTF-16 code units; a code unit is a
    number [N] and a string a [list N].  String literals of the source are
    written [lit "..."]. *)

From Stdlib Require Import List Bool NArith Arith Lia QArith String Ascii.
Import ListNotations.

Open Scope N_scope.

(** ** Strings of code units *)

Definition char16 := N.
Definition jsstring := list char16.

Definition lit (s : string) : jsstring := map N_of_ascii (list_ascii_of_string s).

Fixpoint eqs (a b : jsstring) : bool :=
  match a, b with
  | [], [] => true
  | x :: a', y :: b' => (x =? y) && eqs a' b'
  | _, _ => false
  end.

Definition inRange (lo hi c : char16) : bool := (lo <=? c) && (c <=? hi).

Definition c_at : char16 := 64.
Definition c_dot : char16 := 46.
Definition c_underscore : char16 := 95.
Definition c_hyphen : char16 := 45.
Definition c_plus : char16 := 43.

Definition isAt (c : char16) : bool := c =? c_at.
Definition isDot (c : char16) : bool := c =? c_dot.

Definition isLower (c : char16) : bool := inRange 97 122 c.
Definition isUpper (c : char16) : bool := inRange 65 90 c.
Definition isDigit (c : char16) : bool := inRange 48 57 c.

(** The character class [[a-z0-9._+-]]. *)
Definition isEmailChar (c : char16) : bool :=
  isLower c || isDigit c || (c =? c_dot) || (c =? c_underscore)
  || (c =? c_plus) || (c =? c_hyphen).

(** The class [[a-z]] under the [i] flag.  Without the [u] flag a code unit
    of value 128 or more never canonicalises to an ASCII one, so the class
    is exactly the ASCII letters. *)
Definition isLetterI (c : char16) : bool := isLower c || isUpper c.

(** The class [[a-z0-9.-]] under the [i] flag. *)
Definition isDomainCharI (c : char16) : bool :=
  isLetterI c || isDigit c || (c =? c_dot) || (c =? c_hyphen).

(** [WhiteSpace] and [LineTerminator] code units: what [trim] strips and
    what [\s] matches. *)
Definition isSpace (c : char16) : bool :=
  inRange 9 13 c || (c =? 32) || (c =? 160) || (c =? 5760)
  || inRange 8192 8202 c || (c =? 8232) || (c =? 8233) || (c =? 8239)
  || (c =? 8287) || (c =? 12288) || (c =? 65279).

Fixpoint dropWhile (p : char16 -> bool) (s : jsstring) : jsstring :=
  match s with
  | [] => []
  | c :: r => if p c then dropWhile p r else s
  end.

(** [s.trim()] *)
Definition trim (s : jsstring) : jsstring :=
  rev (dropWhile isSpace (rev (dropWhile isSpace s))).

(** [s.includes("@")] *)
Definition includesAt (s : jsstring) : bool := existsb isAt s.

(** [s.includes("..")] *)
Fixpoint includesDotDot (s : jsstring) : bool :=
  match s with
  | [] => false
  | c :: r =>
      match r with
      | d :: _ => (isDot c && isDot d) || includesDotDot r
      | [] => false
      end
  end.

(** [s.indexOf("@")], with [None] for [-1]. *)
Fixpoint indexOfAt (s : jsstring) : option nat :=
  match s with
  | [] => None
  | c :: r => if isAt c then Some O else option_map S (indexOfAt r)
  end.

(** [s.split(/\s+/)]: a maximal run of white space separates two pieces;
    [cur] is the piece being read and [inRun] tells that the previous code
    unit was white space. *)
Fixpoint splitSpacesFrom (cur : jsstring) (inRun : bool) (s : jsstring)
  : list jsstring :=
  match s with
  | [] => [cur]
  | c :: r =>
      if isSpace c
      then (if inRun then splitSpacesFrom [] true r
            else cur :: splitSpacesFrom [] true r)
      else splitSpacesFrom (cur ++ [c]) false r
  end.

Definition splitSpaces (s : jsstring) : list jsstring := splitSpacesFrom [] false s.

(** [.filter(Boolean)] on an array of strings: the empty string is falsy. *)
Definition nonEmpty (s : jsstring) : bool :=
  match s with [] => false | _ => true end.

(** [s.split("@")]: every [@] separates two pieces. *)
Fixpoint splitAtFrom (cur : jsstring) (s : jsstring) : list jsstring :=
  match s with
  | [] => [cur]
  | c :: r => if isAt c then cur :: splitAtFrom [] r else splitAtFrom (cur ++ [c]) r
  end.

(** [s.split("@", 2)] *)
Definition splitAt2 (s : jsstring) : list jsstring := firstn 2 (splitAtFrom [] s).

(** ** The regular-expression replacements of the clean-up *)

(** [s.replace(/\.+/g, ".")]: the first dot of a run is where the match
    starts and the replacement is written; the rest of the run is consumed. *)
Fixpoint collapseDotsFrom (inRun : bool) (s : jsstring) : jsstring :=
  match s with
  | [] => []
  | c :: r =>
      if isDot c
      then (if inRun then collapseDotsFrom true r else c_dot :: collapseDotsFrom true r)
      else c :: collapseDotsFrom false r
  end.

Definition collapseDots (s : jsstring) : jsstring := collapseDotsFrom false s.

(** [s.replace(/\.@/g, "@")] *)
Fixpoint dropDotBeforeAt (s : jsstring) : jsstring :=
  match s with
  | [] => []
  | c :: r =>
      match r with
      | d :: r' => if isDot c && isAt d then c_at :: dropDotBeforeAt r'
                   else c :: dropDotBeforeAt r
      | [] => [c]
      end
  end.

(** [s.replace(/@\.?/g, "@")] *)
Fixpoint dropDotAfterAt (s : jsstring) : jsstring :=
  match s with
  | [] => []
  | c :: r =>
      if isAt c
      then match r with
           | d :: r' => if isDot d then c_at :: dropDotAfterAt r'
                        else c_at :: dropDotAfterAt r
           | [] => [c_at]
           end
      else c :: dropDotAfterAt r
  end.

(** The alternative [\.+$]: it matches where what is left is dots only. *)
Fixpoint dropTrailingDots (s : jsstring) : jsstring :=
  match s with
  | [] => []
  | c :: r => if forallb isDot s then [] else c :: dropTrailingDots r
  end.

(** [s.replace(/^\.+|\.+$/g, empty)]: leading dots, then trailing dots. *)
Definition stripDots (s : jsstring) : jsstring :=
  dropTrailingDots (dropWhile isDot s).

(** ** Values of the script *)

(** What a property read on [MAP_SINGLE] can give: a string of the table,
    a built-in function or the prototype object (both inherited from
    [Object.prototype]), or [undefined]. *)
Inductive jsval : Type :=
| VString (s : jsstring)
| VNativeFunction (name : jsstring)
| VObjectPrototype
| VUndefined.

(** Truthiness, as tested by [if (MAP_SINGLE[t])]. *)
Definition truthy (v : jsval) : bool :=
  match v with
  | VString s => nonEmpty s
  | VNativeFunction _ => true
  | VObjectPrototype => true
  | VUndefined => false
  end.

(** [sym === "@"] *)
Definition strictEqAt (v : jsval) : bool :=
  match v with
  | VString s => eqs s [c_at]
  | _ => false
  end.

(** The string appended by [out += sym].  A built-in function prints as
    [function name() { [native code] }] on Node.js, a plain object as
    [[object Object]]. *)
Definition toStr (v : jsval) : jsstring :=
  match v with
  | VString s => s
  | VNativeFunction name => lit "function " ++ name ++ lit "() { [native code] }"
  | VObjectPrototype => lit "[object Object]"
  | VUndefined => lit "undefined"
  end.

(** The argument of [formatEmailText]. *)
Inductive jsinput : Type :=
| InAbsent                       (* undefined or null *)
| InOther (isTruthy : bool)      (* a number, boolean, object, ... *)
| InString (s : jsstring).

Record NormalizedResult : Type := mkResult {
  input : jsstring;
  email : jsstring;
  isValid : bool;
  confidence : Q;
  local : jsstring;
  domain : jsstring
}.

Record ErrorResult : Type := mkError {
  err_email : jsstring;
  err_isValid : bool;
  err_confidence : Q;
  reason : jsstring
}.

Inductive Result : Type :=
| Failed (e : ErrorResult)
| Normalized (r : NormalizedResult).

Definition resultEmail (r : Result) : jsstring :=
  match r with Failed e => err_email e | Normalized n => email n end.

Definition resultConfidence (r : Result) : Q :=
  match r with Failed e => err_confidence e | Normalized n => confidence n end.

Definition resultIsValid (r : Result) : bool :=
  match r with Failed e => err_isValid e | Normalized n => isValid n end.

(** The error-shaped object has no [domain] property. *)
Definition resultDomain (r : Result) : option jsstring :=
  match r with Failed _ => None | Normalized n => Some (domain n) end.

(** ** Vocabulary *)

(** [IGNORE], a [Set] of filler words. *)
Definition IGNORE : list jsstring :=
  map lit ["espacio"; "espacios"; "todo"; "junto"; "todojunto"; "sin"; "y";
           "con"; "la"; "el"; "los"; "las"; "por"; "favor"; "porfavor"]%string.

(** [IGNORE.has(t)] *)
Definition IGNORE_has (t : jsstring) : bool := existsb (eqs t) IGNORE.

(** The own properties of the object literal [MAP_SINGLE]. *)
Definition MAP_SINGLE : list (jsstring * jsstring) :=
  map (fun kv => (lit (fst kv), lit (snd kv)))
    [("@", "@"); ("arroba", "@"); ("at", "@");
     ("punto", "."); ("dot", "."); ("puntos", ".");
     ("guion", "-"); ("guionmedio", "-"); ("guion-medio", "-");
     ("dash", "-"); ("hyphen", "-");
     ("guionbajo", "_"); ("underscore", "_");
     ("mas", "+"); ("plus", "+")]%string.

(** [MAP_SINGLE] is written as an object literal, so its prototype is
    [Object.prototype] and a property read that misses the own keys goes on
    there.  These are the properties of [Object.prototype]: [constructor]
    is the function [Object], [__proto__] reads as the prototype itself and
    the others are built-in methods named as their key. *)
Definition ObjectPrototype : list (jsstring * jsval) :=
  [(lit "constructor", VNativeFunction (lit "Object"));
   (lit "__proto__", VObjectPrototype)]
  ++ map (fun k => (lit k, VNativeFunction (lit k)))
       ["__defineGetter__"; "__defineSetter__"; "hasOwnProperty";
        "__lookupGetter__"; "__lookupSetter__"; "isPrototypeOf";
        "propertyIsEnumerable"; "toString"; "valueOf"; "toLocaleString"]%string.

Fixpoint assoc {A : Type} (k : jsstring) (l : list (jsstring * A)) : option A :=
  match l with
  | [] => None
  | (k', v) :: r => if eqs k k' then Some v else assoc k r
  end.

(** [MAP_SINGLE[t]] *)
Definition MAP_SINGLE_get (t : jsstring) : jsval :=
  match assoc t MAP_SINGLE with
  | Some s => VString s
  | None =>
      match assoc t ObjectPrototype with
      | Some v => v
      | None => VUndefined
      end
  end.

(** ** The token loop *)

(** The part of the loop body after the bigram test (source lines 40-50):
    the new [out] and [seenAt]. *)
Definition rewriteSingle (t out : jsstring) (seenAt : bool) : jsstring * bool :=
  let sym := MAP_SINGLE_get t in
  if truthy sym then
    if strictEqAt sym
    then (if seenAt then (out, seenAt) else (out ++ [c_at], true))
    else (out ++ toStr sym, seenAt)
  else if eqs t [c_dot] || eqs t [c_underscore] || eqs t [c_hyphen] || eqs t [c_plus]
  then (out ++ t, seenAt)
  else (out ++ filter isEmailChar t, seenAt).

(** The [while] loop of lines 28-51.  The cursor [i] is the list of tokens
    still to read; every turn consumes one or two of them. *)
Fixpoint rewriteTokens (toks : list jsstring) (out : jsstring) (seenAt : bool)
  : jsstring :=
  match toks with
  | [] => out
  | t :: rest =>
      if IGNORE_has t then rewriteTokens rest out seenAt
      else
        match rest with
        | next :: rest' =>
            if eqs t (lit "guion") && eqs next (lit "bajo")
            then rewriteTokens rest' (out ++ [c_underscore]) seenAt
            else if eqs t (lit "guion")
                    && (eqs next (lit "medio") || eqs next (lit "alto"))
            then rewriteTokens rest' (out ++ [c_hyphen]) seenAt
            else let '(out', seenAt') := rewriteSingle t out seenAt in
                 rewriteTokens rest out' seenAt'
        | [] =>
            let '(out', seenAt') := rewriteSingle t out seenAt in
            rewriteTokens rest out' seenAt'
        end
  end.

(** ** Clean-up (lines 53-63) *)

(** [x || empty] for a destructured piece that may be [undefined]. *)
Definition orEmpty (x : option jsstring) : jsstring :=
  match x with Some s => s | None => [] end.

Definition cleanup (out0 : jsstring) : jsstring :=
  let out := dropDotAfterAt (dropDotBeforeAt (collapseDots out0)) in
  if includesAt out then
    let pieces := splitAt2 out in
    let cleanLocal := stripDots (orEmpty (nth_error pieces 0)) in
    let cleanDomain := stripDots (orEmpty (nth_error pieces 1)) in
    let cleanDomain := collapseDots cleanDomain in
    cleanLocal ++ [c_at] ++ cleanDomain
  else stripDots out.

(** ** [validateEmail] (lines 69-80) *)

Record Validation : Type := mkValidation {
  v_isValid : bool;
  v_confidence : Q;
  v_local : jsstring;
  v_domain : jsstring
}.

(** [/^[a-z0-9._+-]+$/.test(s)] *)
Definition localPattern (s : jsstring) : bool := nonEmpty s && forallb isEmailChar s.

(** [/^[a-z0-9.-]+\.[a-z]{2,}$/i.test(s)]: some dot of [s], at index [k],
    has one or more code units of the class before it and two or more
    letters, up to the end, after it. *)
Definition domainPatternAt (s : jsstring) (k : nat) : bool :=
  let pre := firstn k s in
  let post := skipn (S k) s in
  nonEmpty pre && forallb isDomainCharI pre
  && match nth_error s k with Some c => isDot c | None => false end
  && (2 <=? List.length post)%nat && forallb isLetterI post.

Definition domainPattern (s : jsstring) : bool :=
  existsb (domainPatternAt s) (seq 0 (List.length s)).

Definition localOk (l : jsstring) : bool := localPattern l && (0 <? List.length l)%nat.

Definition domainOk (d : jsstring) : bool := domainPattern d && negb (includesDotDot d).

Definition validateEmail (e : jsstring) : Validation :=
  match indexOfAt e with
  | None => mkValidation false 0.4%Q [] []
  | Some at_ =>
      let l := firstn at_ e in
      let d := skipn (S at_) e in
      let confidence :=
        if localOk l && domainOk d then 0.99%Q
        else if localOk l && (0 <? List.length d)%nat then 0.8%Q
        else 0.6%Q in
      mkValidation (localOk l && domainOk d) confidence l d
  end.

(** ** [formatEmailText] (lines 9-67) *)

Definition isAscii (c : char16) : bool := c <? 128.

Definition asciiLower (c : char16) : char16 := if isUpper c then c + 32 else c.

(** [U+0300]-[U+036F], the combining marks removed by [removeDiacritics]. *)
Definition isCombiningMark (c : char16) : bool := inRange 768 879 c.

Definition emptyInput : ErrorResult :=
  mkError [] false 0.0%Q (lit "Empty input").

(** [!input] *)
Definition falsy (i : jsinput) : bool :=
  match i with
  | InAbsent => true
  | InOther b => negb b
  | InString s => negb (nonEmpty s)
  end.

(** [typeof input === "string"] *)
Definition typeofString (i : jsinput) : bool :=
  match i with
  | InString _ => true
  | _ => false
  end.

Section Runtime.

(** The Unicode tables of the JavaScript engine are not part of the
    program.  On a string of ASCII code units [toLowerCase] maps [A-Z] to
    [a-z] and [normalize("NFD")] changes nothing; on any other string they
    are what the engine computes, taken here as two arbitrary functions. *)
Variable unicodeLower : jsstring -> jsstring.
Variable unicodeNFD : jsstring -> jsstring.

Definition toLowerCase (s : jsstring) : jsstring :=
  if forallb isAscii s then map asciiLower s else unicodeLower s.

Definition normalizeNFD (s : jsstring) : jsstring :=
  if forallb isAscii s then s else unicodeNFD s.

(** Line 7. *)
Definition removeDiacritics (s : jsstring) : jsstring :=
  filter (fun c => negb (isCombiningMark c)) (normalizeNFD s).

(** Lines 13-14. *)
Definition rawTokens (s0 : jsstring) : list jsstring :=
  let s := removeDiacritics (toLowerCase (trim s0)) in
  filter nonEmpty (splitSpaces s).

(** Lines 13-66, for a non-empty string. *)
Definition normalizeString (s0 : jsstring) : NormalizedResult :=
  let out := rewriteTokens (rawTokens s0) [] false in
  let out := cleanup out in
  let v := validateEmail out in
  mkResult s0 out (v_isValid v) (v_confidence v) (v_local v) (v_domain v).

(** The guard of line 10 lets through non-empty strings only. *)
Definition formatEmailText (i : jsinput) : Result :=
  if falsy i || negb (typeofString i) then Failed emptyInput
  else match i with
       | InString s => Normalized (normalizeString s)
       | _ => Failed emptyInput
       end.

End Runtime.

(** * Predicates used in the statements *)

(** The string has no [@]. *)
Definition noAt (s : jsstring) : Prop := forall c, In c s -> isAt c = false.

(** Every code unit of [f s] already occurs in [s]: [f] only deletes, or
    rewrites a match to a code unit of the match. *)
Definition shrinks (f : jsstring -> jsstring) : Prop :=
  forall s c, In c (f s) -> In c s.

(** The number of [@] in a string. *)
Definition countAt (s : jsstring) : nat := List.length (filter isAt s).

(** *** The shape of a domain, in the words of the specification

    One or more groups of code units of [[a-z0-9-]], any case, separated by
    single dots, then a final dot and a top-level label of two or more
    letters. *)

(** The class [[a-z0-9-]] under the [i] flag. *)
Definition isLabelCharI (c : char16) : bool :=
  isLetterI c || isDigit c || (c =? c_hyphen).

(** The pieces of a string between its dots. *)
Fixpoint splitDots (s : jsstring) : list jsstring :=
  match s with
  | [] => [[]]
  | c :: r =>
      if isDot c then [] :: splitDots r
      else match splitDots r with
           | g :: gs => (c :: g) :: gs
           | [] => [[c]]
           end
  end.

(** A group: one or more code units of the class. *)
Definition isGroup (g : jsstring) : bool := nonEmpty g && forallb isLabelCharI g.

(** A top-level label: two or more letters. *)
Definition isTopLabel (t : jsstring) : bool :=
  (2 <=? List.length t)%nat && forallb isLetterI t.

(** Groups separated by single dots, a final dot, a top-level label. *)
Definition domainShape (d : jsstring) : bool :=
  match rev (splitDots d) with
  | t :: g :: gs => isTopLabel t && forallb isGroup (g :: gs)
  | _ => false
  end.

(** The condition on the domain as the specification words it. *)
Definition domainSpec (d : jsstring) : bool :=
  domainShape d && negb (includesDotDot d).

(** The same, with one dot allowed in front of the first group. *)
Definition domainSpecLeadingDot (d : jsstring) : bool :=
  (domainShape d
   || match d with
      | c :: d' => isDot c && domainShape d'
      | [] => false
      end)
  && negb (includesDotDot d).

(** The groups put back together, for the proofs. *)
Fixpoint joinDots (gs : list jsstring) : jsstring :=
  match gs with
  | [] => []
  | g :: r =>
      match r with
      | [] => g
      | _ :: _ => g ++ c_dot :: joinDots r
      end
  end.

(** [domainShape] as a decomposition of the string. *)
Definition Groups (gs : list jsstring) : Prop :=
  gs <> [] /\ Forall (fun g => isGroup g = true) gs.

Definition domainParts (d : jsstring) : Prop :=
  exists (gs : list jsstring) (t : jsstring),
    Groups gs /\ isTopLabel t = true /\ d = joinDots gs ++ c_dot :: t.

(** The string has no dot. *)
Definition noDot (g : jsstring) : Prop := forallb (fun c => negb (isDot c)) g = true.

(** The characters an email is meant to be made of:
    [a-z], [0-9], [.], [_], [+], [-] and [@]. *)
Definition isAddressChar (c : char16) : bool := isEmailChar c || isAt c.

Abbreviation addressChars := (Forall (fun c => isAddressChar c = true)).

(** No token reads a property that [MAP_SINGLE] inherits. *)
Definition noInheritedKey (toks : list jsstring) : Prop :=
  Forall (fun t => assoc t ObjectPrototype = None) toks.

(** * Further predicates *)

(** The three tokens that [MAP_SINGLE] maps to [@]. *)
Definition isAtWord (t : jsstring) : bool :=
  eqs t (lit "@") || eqs t (lit "arroba") || eqs t (lit "at").

(** [f] keeps an [@] that is there. *)
Definition keepsAt (f : jsstring -> jsstring) : Prop :=
  forall s, includesAt s = true -> includesAt (f s) = true.

Definition startsWithDot (s : jsstring) : bool :=
  match s with
  | [] => false
  | c :: _ => isDot c
  end.

Definition endsWithDot (s : jsstring) : bool := isDot (last s c_at).

(** The string begins or ends with a dot. *)
Definition dotAtEdge (s : jsstring) : bool := startsWithDot s || endsWithDot s.

(** The tokens put in a line, one space between two of them. *)
Fixpoint joinSpaces (ts : list jsstring) : jsstring :=
  match ts with
  | [] => []
  | t :: r =>
      match r with
      | [] => t
      | _ :: _ => t ++ 32 :: joinSpaces r
      end
  end.

(** A word: one or more code units, none of them white space. *)
Definition isWord (t : jsstring) : bool :=
  nonEmpty t && forallb (fun c => negb (isSpace c)) t.

(** Some "guion" is directly followed by a filler word. *)
Fixpoint guionThenFiller (toks : list jsstring) : bool :=
  match toks with
  | [] => false
  | t :: rest =>
      match rest with
      | next :: _ => (eqs t (lit "guion") && IGNORE_has next) || guionThenFiller rest
      | [] => false
      end
  end.

(** The fields of a result that depend on the cleaned text only. *)
Definition outcome (r : NormalizedResult) : jsstring * bool * Q * jsstring * jsstring :=
  (email r, isValid r, confidence r, local r, domain r).

(** No white space in the string. *)
Definition spaceFree (t : jsstring) : Prop :=
  forallb (fun c => negb (isSpace c)) t = true.

(** * The HTTP handler (lines 1-5 and 82-108) *)

(** What the handler sends: the [setHeader] calls in order, the status and
    the body given to [json], or none after [end()]. *)
Inductive Body : Type :=
| BodyNone
| BodyError (error : jsstring)
| BodyFailure (error details : jsstring)
| BodyResult (r : Result).

Record Response : Type := mkResponse {
  r_headers : list (jsstring * jsstring);
  r_status : nat;
  r_body : Body
}.

(** What the handler reads of the request.  [req.query] is [None] when it
    is falsy, else the value of [req.query.text]; the same for [req.body].
    The stream of the request, read when there is no parsed body, gives its
    chunks decoded as UTF-8, or throws. *)
Record Request : Type := mkRequest {
  method : jsstring;
  query : option jsinput;
  body : option jsinput;
  stream : jsstring + jsstring
}.

(** [allowCORS] (lines 1-5). *)
Definition allowCORS (hs : list (jsstring * jsstring)) : list (jsstring * jsstring) :=
  hs ++ [(lit "Access-Control-Allow-Origin", lit "*");
         (lit "Access-Control-Allow-Methods", lit "GET,POST,OPTIONS");
         (lit "Access-Control-Allow-Headers", lit "Content-Type")].

(** [v || empty string] *)
Definition orEmptyString (v : jsinput) : jsinput :=
  if falsy v then InString [] else v.

(** The outcome of lines 88-102: the text, a thrown error caught at line
    105, or the early return of line 100. *)
Inductive TextRead : Type :=
| Text (v : jsinput)
| Thrown (details : jsstring)
| NotAllowed.

Definition missingText : jsstring :=
  lit "Falta el par" ++ [225] ++ lit "metro " ++ [34] ++ lit "text" ++ [34]
  ++ lit " (string).".

Section Handler.

Variable unicodeLower : jsstring -> jsstring.
Variable unicodeNFD : jsstring -> jsstring.

(** [JSON.parse(x).text]: the value read, or the error thrown by the parser
    or by the property read, as [String(e)] prints it. *)
Variable parseText : jsstring -> jsinput + jsstring.

Definition readText (req : Request) : TextRead :=
  if eqs (method req) (lit "GET") then
    Text (orEmptyString (match query req with
                         | Some v => v
                         | None => InAbsent
                         end))
  else if eqs (method req) (lit "POST") then
    match body req with
    | None =>
        match stream req with
        | inr e => Thrown e
        | inl raw =>
            match parseText (if nonEmpty raw then raw else lit "{}") with
            | inr e => Thrown e
            | inl v => Text (orEmptyString v)
            end
        end
    | Some v => Text (orEmptyString v)
    end
  else NotAllowed.

Definition handler (req : Request) : Response :=
  let hs := allowCORS [] in
  if eqs (method req) (lit "OPTIONS") then mkResponse hs 204 BodyNone
  else
    match readText req with
    | NotAllowed => mkResponse hs 405 (BodyError (lit "Method Not Allowed"))
    | Thrown e => mkResponse hs 500 (BodyFailure (lit "Internal Server Error") e)
    | Text text =>
        if falsy text then mkResponse hs 400 (BodyError missingText)
        else mkResponse hs 200
               (BodyResult (formatEmailText unicodeLower unicodeNFD text))
    end.

End Handler.

(** * The second variant of the file (lines 110-275)

    It has a larger vocabulary and, between the replacements of line 182 and
    the final adjustment of line 210, two attempts at putting an [@] in a
    text that has none. *)

Definition IGNORE_v2 : list jsstring :=
  map lit ["espacio"; "espacios"; "todo"; "junto"; "todojunto"; "sin";
           "y"; "con"; "la"; "el"; "los"; "las"; "por"; "favor"; "porfavor";
           "porfa"]%string.

Definition MAP_SINGLE_v2 : list (jsstring * jsstring) :=
  map (fun kv => (lit (fst kv), lit (snd kv)))
    [("@", "@");
     ("arroba", "@"); ("aroba", "@"); ("arrova", "@"); ("arzroba", "@"); ("at", "@");
     ("punto", "."); ("puntos", "."); ("dot", ".");
     ("guion", "-"); ("guionmedio", "-"); ("guion-medio", "-");
     ("dash", "-"); ("hyphen", "-");
     ("guionbajo", "_"); ("underscore", "_");
     ("mas", "+"); ("plus", "+")]%string.

(** The vocabulary of the fourth variant (lines 484-492). *)
Definition MAP_SINGLE_v4 : list (jsstring * jsstring) :=
  map (fun kv => (lit (fst kv), lit (snd kv)))
    [("@", "@"); ("arroba", "@"); ("arzroba", "@"); ("aroba", "@"); ("at", "@");
     ("punto", "."); ("puntos", "."); ("dot", ".");
     ("guion", "-"); ("guionmedio", "-"); ("guion-medio", "-");
     ("dash", "-"); ("hyphen", "-");
     ("guionbajo", "_"); ("underscore", "_");
     ("mas", "+"); ("plus", "+")]%string.

(** The token loop is the same text in every variant; here it is with the
    two tables as arguments, and with [seenAt] returned, which the second
    variant reads after the loop. *)
Section Vocabulary.

Variable ignore : list jsstring.
Variable table : list (jsstring * jsstring).

Definition tableGet (t : jsstring) : jsval :=
  match assoc t table with
  | Some s => VString s
  | None =>
      match assoc t ObjectPrototype with
      | Some v => v
      | None => VUndefined
      end
  end.

Definition stepWith (t out : jsstring) (seenAt : bool) : jsstring * bool :=
  let sym := tableGet t in
  if truthy sym then
    if strictEqAt sym
    then (if seenAt then (out, seenAt) else (out ++ [c_at], true))
    else (out ++ toStr sym, seenAt)
  else if eqs t [c_dot] || eqs t [c_underscore] || eqs t [c_hyphen] || eqs t [c_plus]
  then (out ++ t, seenAt)
  else (out ++ filter isEmailChar t, seenAt).

Fixpoint loopWith (toks : list jsstring) (out : jsstring) (seenAt : bool)
  : jsstring * bool :=
  match toks with
  | [] => (out, seenAt)
  | t :: rest =>
      if existsb (eqs t) ignore then loopWith rest out seenAt
      else
        match rest with
        | next :: rest' =>
            if eqs t (lit "guion") && eqs next (lit "bajo")
            then loopWith rest' (out ++ [c_underscore]) seenAt
            else if eqs t (lit "guion")
                    && (eqs next (lit "medio") || eqs next (lit "alto"))
            then loopWith rest' (out ++ [c_hyphen]) seenAt
            else let '(out', seenAt') := stepWith t out seenAt in
                 loopWith rest out' seenAt'
        | [] =>
            let '(out', seenAt') := stepWith t out seenAt in
            loopWith rest out' seenAt'
        end
  end.

End Vocabulary.

(** Lines 182-185. *)
Definition basicCleanup (out : jsstring) : jsstring :=
  dropDotAfterAt (dropDotBeforeAt (collapseDots out)).

(** Lines 210-218. *)
Definition finalAdjust (out : jsstring) : jsstring :=
  if includesAt out then
    let pieces := splitAt2 out in
    let cleanLocal := stripDots (orEmpty (nth_error pieces 0)) in
    let cleanDomain := stripDots (orEmpty (nth_error pieces 1)) in
    let cleanDomain := collapseDots cleanDomain in
    cleanLocal ++ [c_at] ++ cleanDomain
  else stripDots out.

(** The class [[\.\-_+]]. *)
Definition isSym (c : char16) : bool :=
  (c =? c_dot) || (c =? c_hyphen) || (c =? c_underscore) || (c =? c_plus).

(** A line terminator, which the dot of a pattern does not match. *)
Definition isLineTerminator (c : char16) : bool :=
  (c =? 10) || (c =? 13) || (c =? 8232) || (c =? 8233).

(** [s.replace(/[\.\-_+]+$/g, empty)]: the match starts where what is left
    is of the class only. *)
Fixpoint dropTrailingSyms (s : jsstring) : jsstring :=
  match s with
  | [] => []
  | c :: r => if forallb isSym s then [] else c :: dropTrailingSyms r
  end.

(** [s] is [pre], a dot at index [k], and [post]. *)
Definition dotSplit (pre post : jsstring -> bool) (s : jsstring) (k : nat) : bool :=
  pre (firstn k s)
  && match nth_error s k with Some c => isDot c | None => false end
  && post (skipn (S k) s).

(** [[a-z]{2,}(?:\.[a-z]{2,})?] under the [i] flag, on a whole string. *)
Definition topLabels (t : jsstring) : bool :=
  isTopLabel t || existsb (dotSplit isTopLabel isTopLabel t) (seq 0 (List.length t)).

(** [[a-z0-9-]+\.[a-z]{2,}(?:\.[a-z]{2,})?] under the [i] flag, on a whole
    string: the second group of the pattern of lines 191 and 200, which the
    final [$] makes run to the end. *)
Definition domainTail (s : jsstring) : bool :=
  existsb (dotSplit isGroup topLabels s) (seq 0 (List.length s)).

(** [s.slice(i, p)] *)
Definition slice (s : jsstring) (i p : nat) : jsstring := firstn (p - i) (skipn i s).

Fixpoint firstSome {A B : Type} (f : A -> option B) (l : list A) : option B :=
  match l with
  | [] => None
  | x :: r => match f x with Some y => Some y | None => firstSome f r end
  end.

(** The lazy group [(.*?)] from the start [i]: the first end [p] such that
    no line terminator lies between and the rest is a [domainTail]. *)
Definition lazyEnd (out : jsstring) (i : nat) : option nat :=
  find (fun p => forallb (fun c => negb (isLineTerminator c)) (slice out i p)
                 && domainTail (skipn p out))
       (seq i (S (List.length out) - i)).

(** [out.match(/(.*?)([a-z0-9-]+\.[a-z]{2,}(?:\.[a-z]{2,})?)$/i)]: the
    first start that has a match, and for it the two groups. *)
Definition matchTail (out : jsstring) : option (jsstring * jsstring) :=
  firstSome (fun i => match lazyEnd out i with
                      | Some p => Some (slice out i p, skipn p out)
                      | None => None
                      end)
            (seq 0 (S (List.length out))).

(** The body of each of the two attempts (lines 191-196 and 200-205). *)
Definition inferAt (out : jsstring) : jsstring :=
  match matchTail out with
  | Some (m1, m2) =>
      let local := dropTrailingSyms m1 in
      let domain := dropWhile isSym m2 in
      if nonEmpty local && nonEmpty domain then local ++ [c_at] ++ domain else out
  | None => out
  end.

(** Lines 188-207. *)
Definition ensureAt (out : jsstring) (seenAt : bool) : jsstring :=
  if negb (includesAt out) then
    let out := if seenAt then inferAt out else out in
    if negb (includesAt out) then inferAt out else out
  else out.

Section RuntimeVariants.

Variable unicodeLower : jsstring -> jsstring.
Variable unicodeNFD : jsstring -> jsstring.

(** Lines 132-222, for a non-empty string. *)
Definition normalizeString_v2 (s0 : jsstring) : NormalizedResult :=
  let '(out, seenAt) :=
    loopWith IGNORE_v2 MAP_SINGLE_v2 (rawTokens unicodeLower unicodeNFD s0) [] false in
  let out := basicCleanup out in
  let out := ensureAt out seenAt in
  let out := finalAdjust out in
  let v := validateEmail out in
  mkResult s0 out (v_isValid v) (v_confidence v) (v_local v) (v_domain v).

Definition formatEmailText_v2 (i : jsinput) : Result :=
  if falsy i || negb (typeofString i) then Failed emptyInput
  else match i with
       | InString s => Normalized (normalizeString_v2 s)
       | _ => Failed emptyInput
       end.

(** Lines 481-532, for a non-empty string: the first variant with the
    vocabulary of the fourth. *)
Definition normalizeString_v4 (s0 : jsstring) : NormalizedResult :=
  let out := fst (loopWith IGNORE MAP_SINGLE_v4
                    (rawTokens unicodeLower unicodeNFD s0) [] false) in
  let out := cleanup out in
  let v := validateEmail out in
  mkResult s0 out (v_isValid v) (v_confidence v) (v_local v) (v_domain v).

End RuntimeVariants.

(** Every value of the table is [@] or a text without [@]. *)
Definition tableValuesOk (table : list (jsstring * jsstring)) : Prop :=
  Forall (fun kv => eqs (snd kv) [c_at] = true \/ includesAt (snd kv) = false) table.

(** No line terminator in the string. *)
Definition oneLine (s : jsstring) : bool :=
  forallb (fun c => negb (isLineTerminator c)) s.

(** No value of the table holds a line terminator. *)
Definition tableOneLine (table : list (jsstring * jsstring)) : Prop :=
  Forall (fun kv => oneLine (snd kv) = true) table.

(** The words that only the second variant knows. *)
Definition isNewWord_v2 (t : jsstring) : bool :=
  eqs t (lit "porfa") || eqs t (lit "aroba") || eqs t (lit "arrova")
  || eqs t (lit "arzroba").

(** The words that only the fourth variant knows. *)
Definition isNewWord_v4 (t : jsstring) : bool :=
  eqs t (lit "arzroba") || eqs t (lit "aroba").

(** * The handler of the third variant (lines 429-466)

    Its [formatEmailText] is the one of the first variant, word for word;
    the handler differs in how it reads and tests the text. *)

Section Handler3.

Variable unicodeLower : jsstring -> jsstring.
Variable unicodeNFD : jsstring -> jsstring.
Variable parseText : jsstring -> jsinput + jsstring.

Definition readText_v3 (req : Request) : TextRead :=
  if eqs (method req) (lit "GET") then
    Text (orEmptyString (match query req with
                         | Some v => v
                         | None => InAbsent
                         end))
  else if eqs (method req) (lit "POST") then
    match body req with
    | None =>
        match stream req with
        | inr e => Thrown e
        | inl raw =>
            match parseText raw with
            | inr _ => Text (InString [])
            | inl v => Text v
            end
        end
    | Some v => Text v
    end
  else NotAllowed.

Definition handler_v3 (req : Request) : Response :=
  let hs := allowCORS [] in
  if eqs (method req) (lit "OPTIONS") then mkResponse hs 204 BodyNone
  else
    match readText_v3 req with
    | NotAllowed => mkResponse hs 405 (BodyError (lit "Method Not Allowed"))
    | Thrown e => mkResponse hs 500 (BodyFailure (lit "Internal Server Error") e)
    | Text text =>
        if falsy text || negb (typeofString text)
        then mkResponse hs 400 (BodyError missingText)
        else mkResponse hs 200
               (BodyResult (formatEmailText unicodeLower unicodeNFD text))
    end.

End Handler3.

(** * Properties *)

(** ** Code units and elementary string facts *)

Lemma isAt_eq (c : char16) : isAt c = true -> c = c_at.
Proof. unfold isAt; intros H; now apply N.eqb_eq in H. Qed.

Lemma isDot_eq (c : char16) : isDot c = true -> c = c_dot.
Proof. unfold isDot; intros H; now apply N.eqb_eq in H. Qed.

Lemma eqs_eq (a b : jsstring) : eqs a b = true <-> a = b.
Proof.
  revert b; induction a as [|x a IH]; intros [|y b]; simpl; split;
    try easy; intros H.
  - apply andb_true_iff in H as [Hx Hr].
    apply N.eqb_eq in Hx; apply IH in Hr; congruence.
  - injection H as -> ->. rewrite N.eqb_refl. now apply IH.
Qed.

Lemma includesAt_false (s : jsstring) : includesAt s = false <-> noAt s.
Proof.
  unfold includesAt, noAt; split.
  - intros H c Hc. destruct (isAt c) eqn:E; [|reflexivity].
    assert (existsb isAt s = true) by (apply existsb_exists; eauto). congruence.
  - intros H. destruct (existsb isAt s) eqn:E; [|reflexivity].
    apply existsb_exists in E as (c & Hc & Hat). rewrite (H c Hc) in Hat. discriminate.
Qed.

Lemma noAt_app (a b : jsstring) : noAt a -> noAt b -> noAt (a ++ b).
Proof. intros Ha Hb c Hc. apply in_app_or in Hc as [H|H]; auto. Qed.

(** Induction that peels one element but may look at the next one, as the
    two-unit patterns of the clean-up and the bigram test of the loop do. *)
Lemma list_ind2 {A : Type} (P : list A -> Prop) :
  P [] ->
  (forall c, P [c]) ->
  (forall c d r, P (d :: r) -> P r -> P (c :: d :: r)) ->
  forall s, P s.
Proof.
  intros H0 H1 H2 s.
  enough (P s /\ forall c, P (c :: s)) by tauto.
  induction s as [|d r [IHr IHc]]; split; auto.
Qed.

(** ** The replacements only delete or rewrite in place *)

Lemma dropWhile_shrinks (p : char16 -> bool) : shrinks (dropWhile p).
Proof.
  intros s; induction s as [|x r IH]; simpl; intros c Hc; [easy|].
  destruct (p x); [right; auto | exact Hc].
Qed.

Lemma dropTrailingDots_shrinks : shrinks dropTrailingDots.
Proof.
  intros s; induction s as [|x r IH]; intros c Hc; [easy|].
  cbn [dropTrailingDots] in Hc.
  destruct (forallb isDot (x :: r)); [easy|].
  destruct Hc as [->|Hc]; [now left | right; auto].
Qed.

Lemma stripDots_shrinks : shrinks stripDots.
Proof.
  intros s c Hc. unfold stripDots in Hc.
  apply (dropWhile_shrinks isDot), dropTrailingDots_shrinks, Hc.
Qed.

Lemma collapseDotsFrom_shrinks (b : bool) : shrinks (collapseDotsFrom b).
Proof.
  intros s; revert b; induction s as [|x r IH]; intros b c Hc; [easy|].
  simpl in Hc. destruct (isDot x) eqn:Ex.
  - apply isDot_eq in Ex; subst x.
    destruct b; [right; eauto|].
    destruct Hc as [<-|Hc]; [now left | right; eauto].
  - destruct Hc as [<-|Hc]; [now left | right; eauto].
Qed.

Lemma collapseDots_shrinks : shrinks collapseDots.
Proof. exact (collapseDotsFrom_shrinks false). Qed.

Lemma dropDotBeforeAt_shrinks : shrinks dropDotBeforeAt.
Proof.
  intros s; induction s as [|x|x y r IH1 IH2] using list_ind2;
    intros c Hc; [easy|exact Hc|].
  cbn [dropDotBeforeAt] in Hc. fold (dropDotBeforeAt (y :: r)) in Hc.
  destruct (isDot x && isAt y) eqn:E.
  - apply andb_true_iff in E as [_ Ey]. apply isAt_eq in Ey; subst y.
    destruct Hc as [<-|Hc]; [right; now left | right; right; auto].
  - destruct Hc as [<-|Hc]; [now left | right; auto].
Qed.

Lemma dropDotAfterAt_shrinks : shrinks dropDotAfterAt.
Proof.
  intros s; induction s as [|x|x y r IH1 IH2] using list_ind2; intros c Hc.
  - easy.
  - simpl in Hc. destruct (isAt x) eqn:Ex; [apply isAt_eq in Ex; subst x|]; exact Hc.
  - cbn [dropDotAfterAt] in Hc. fold (dropDotAfterAt (y :: r)) in Hc.
    destruct (isAt x) eqn:Ex.
    + apply isAt_eq in Ex; subst x.
      destruct (isDot y);
        (destruct Hc as [<-|Hc]; [now left | right; auto using in_cons]).
    + destruct Hc as [<-|Hc]; [now left | right; auto].
Qed.

Create HintDb shrink.

#[local] Hint Resolve dropWhile_shrinks dropTrailingDots_shrinks stripDots_shrinks
  collapseDots_shrinks dropDotBeforeAt_shrinks dropDotAfterAt_shrinks : shrink.

Lemma shrinks_noAt (f : jsstring -> jsstring) (s : jsstring) :
  shrinks f -> noAt s -> noAt (f s).
Proof. intros Hf Hs c Hc. apply Hs, Hf, Hc. Qed.

(** ** Splitting at the separator *)

Lemma splitAtFrom_noAt (s cur : jsstring) :
  noAt cur -> Forall noAt (splitAtFrom cur s).
Proof.
  revert cur; induction s as [|c r IH]; intros cur Hcur; simpl.
  - now constructor.
  - destruct (isAt c) eqn:Ec.
    + constructor; [exact Hcur | apply IH; intros ? []].
    + apply IH, noAt_app; [exact Hcur|]. intros x [<-|[]]; exact Ec.
Qed.

Lemma splitAtFrom_chars (P : char16 -> Prop) (s cur : jsstring) :
  Forall P cur -> Forall P s -> Forall (Forall P) (splitAtFrom cur s).
Proof.
  revert cur; induction s as [|c r IH]; intros cur Hcur Hs; simpl.
  - now constructor.
  - inversion Hs as [|? ? Hc Hr]; subst.
    destruct (isAt c).
    + constructor; [exact Hcur | now apply IH].
    + apply IH; [|exact Hr]. apply Forall_app; split; [exact Hcur | now constructor].
Qed.

(** A destructured piece of [split("@", 2)] has whatever every piece has. *)
Lemma piece_has (Q : jsstring -> Prop) (pieces : list jsstring) (k : nat) :
  Q [] -> Forall Q pieces -> Q (orEmpty (nth_error (firstn 2 pieces) k)).
Proof.
  intros Hnil Hall.
  destruct (nth_error (firstn 2 pieces) k) as [x|] eqn:E; simpl; [|exact Hnil].
  apply nth_error_In in E.
  assert (Hin : In x pieces).
  { rewrite <- (firstn_skipn 2 pieces). apply in_or_app; now left. }
  rewrite Forall_forall in Hall. now apply Hall.
Qed.

Lemma noAt_nil : noAt [].
Proof. intros ? []. Qed.

(** ** Collapsing runs of dots *)

Lemma collapseDotsFrom_no_dotdot (s : jsstring) (b : bool) :
  includesDotDot (collapseDotsFrom b s) = false
  /\ (b = true -> match collapseDotsFrom b s with
                  | [] => True
                  | c :: _ => isDot c = false
                  end).
Proof.
  revert b; induction s as [|x r IH]; intros b; simpl; [easy|].
  destruct (isDot x) eqn:Ex.
  - destruct b.
    + apply IH.
    + split; [|discriminate].
      destruct (IH true) as [Hdd Hhd]. specialize (Hhd eq_refl).
      cbn [includesDotDot].
      destruct (collapseDotsFrom true r) as [|y t]; [reflexivity|].
      rewrite Hhd, andb_false_r. exact Hdd.
  - split; [|intros _; exact Ex].
    destruct (IH false) as [Hdd _].
    cbn [includesDotDot].
    destruct (collapseDotsFrom false r) as [|y t]; [reflexivity|].
    rewrite Ex. exact Hdd.
Qed.

Lemma collapseDots_no_dotdot (s : jsstring) : includesDotDot (collapseDots s) = false.
Proof. apply (collapseDotsFrom_no_dotdot s false). Qed.

(** ** Finding the separator *)

Lemma indexOfAt_Some (e : jsstring) (k : nat) :
  indexOfAt e = Some k ->
  e = firstn k e ++ c_at :: skipn (S k) e /\ noAt (firstn k e).
Proof.
  revert k; induction e as [|c r IH]; intros k; simpl; [discriminate|].
  destruct (isAt c) eqn:Ec.
  - intros [= <-]. apply isAt_eq in Ec; subst c. split; [reflexivity | apply noAt_nil].
  - destruct (indexOfAt r) as [j|]; [|discriminate]. simpl.
    intros [= <-]. destruct (IH j eq_refl) as [Heq Hno].
    split.
    + simpl. f_equal. exact Heq.
    + intros x [<-|Hx]; [exact Ec | now apply Hno].
Qed.

Lemma indexOfAt_None (e : jsstring) : indexOfAt e = None <-> includesAt e = false.
Proof.
  unfold includesAt. induction e as [|c r IH]; simpl; [easy|].
  destruct (isAt c); simpl; [easy|].
  destruct (indexOfAt r); simpl in *; [|tauto].
  split; [discriminate|]. intros H; apply IH in H; discriminate.
Qed.

Lemma indexOfAt_app (l d : jsstring) :
  noAt l -> indexOfAt (l ++ c_at :: d) = Some (List.length l).
Proof.
  induction l as [|c r IH]; intros Hl; simpl; [reflexivity|].
  rewrite (Hl c (or_introl eq_refl)).
  rewrite IH; [reflexivity|]. intros x Hx; apply Hl; now right.
Qed.

(** What [validateEmail] returns as [local] and [domain] for an address put
    together as [l + "@" + d]. *)
Lemma validateEmail_parts (l d : jsstring) :
  noAt l ->
  v_local (validateEmail (l ++ c_at :: d)) = l
  /\ v_domain (validateEmail (l ++ c_at :: d)) = d.
Proof.
  intros Hl. unfold validateEmail. rewrite (indexOfAt_app l d Hl).
  cbn [v_local v_domain]. split.
  - rewrite firstn_app, Nat.sub_diag, firstn_all. simpl. apply app_nil_r.
  - induction l as [|x r IH]; [reflexivity|].
    apply IH. intros y Hy; apply Hl; now right.
Qed.

(** ** The clean-up leaves one separator at most *)

Lemma cleanup_shape (out0 : jsstring) :
  (exists l d, cleanup out0 = l ++ c_at :: d
               /\ noAt l /\ noAt d /\ includesDotDot d = false)
  \/ noAt (cleanup out0).
Proof.
  unfold cleanup.
  set (out := dropDotAfterAt (dropDotBeforeAt (collapseDots out0))).
  destruct (includesAt out) eqn:E.
  - left.
    assert (Hp : Forall noAt (splitAtFrom [] out))
      by (apply splitAtFrom_noAt, noAt_nil).
    eexists _, _; split; [reflexivity|]. unfold splitAt2. repeat split.
    + apply shrinks_noAt; auto with shrink. apply piece_has; auto using noAt_nil.
    + do 2 (apply shrinks_noAt; auto with shrink).
      apply piece_has; auto using noAt_nil.
    + apply collapseDots_no_dotdot.
  - right. apply shrinks_noAt; auto with shrink. now apply includesAt_false.
Qed.

Lemma countAt_noAt (s : jsstring) : noAt s -> countAt s = 0%nat.
Proof.
  unfold countAt. induction s as [|c r IH]; intros H; simpl; [reflexivity|].
  rewrite (H c (or_introl eq_refl)). apply IH. intros x Hx; apply H; now right.
Qed.

Lemma countAt_app (a b : jsstring) : countAt (a ++ b) = (countAt a + countAt b)%nat.
Proof. unfold countAt. now rewrite filter_app, length_app. Qed.

Lemma cleanup_countAt (out0 : jsstring) : (countAt (cleanup out0) <= 1)%nat.
Proof.
  destruct (cleanup_shape out0) as [(l & d & -> & Hl & Hd & _)|H].
  - rewrite countAt_app. change (c_at :: d) with ([c_at] ++ d).
    rewrite countAt_app, (countAt_noAt l Hl), (countAt_noAt d Hd). simpl. lia.
  - rewrite (countAt_noAt _ H). lia.
Qed.

(** ** White space *)

Lemma dropWhile_all (p : char16 -> bool) (s : jsstring) :
  forallb p s = true -> dropWhile p s = [].
Proof.
  induction s as [|c r IH]; simpl; [reflexivity|].
  intros H. apply andb_true_iff in H as [-> Hr]. now apply IH.
Qed.

Lemma trim_spaces (s : jsstring) : forallb isSpace s = true -> trim s = [].
Proof. intros H. unfold trim. now rewrite (dropWhile_all _ _ H). Qed.

(** ** The pattern of the domain *)

Lemma includesDotDot_cons (c d : char16) (r : jsstring) :
  includesDotDot (c :: d :: r) = (isDot c && isDot d) || includesDotDot (d :: r).
Proof. reflexivity. Qed.

Lemma includesDotDot_app_l (a b : jsstring) :
  includesDotDot (a ++ b) = false -> includesDotDot a = false.
Proof.
  induction a as [|x|x y r IH1 IH2] using list_ind2; try reflexivity.
  change ((x :: y :: r) ++ b) with (x :: y :: (r ++ b)).
  rewrite !includesDotDot_cons. intros H.
  apply orb_false_iff in H as [-> H]. now apply IH1.
Qed.

Lemma domainPattern_split (d : jsstring) :
  domainPattern d = true <->
  exists pre post,
    d = pre ++ c_dot :: post /\ pre <> []
    /\ forallb isDomainCharI pre = true
    /\ (2 <= List.length post)%nat /\ forallb isLetterI post = true.
Proof.
  unfold domainPattern. rewrite existsb_exists. split.
  - intros (k & _ & H). unfold domainPatternAt in H.
    repeat (apply andb_true_iff in H as [H ?]).
    destruct (nth_error d k) as [c|] eqn:Ek; [|discriminate].
    apply nth_error_split in Ek as (l1 & l2 & -> & <-).
    rewrite firstn_app, Nat.sub_diag, firstn_all, app_nil_r in *.
    replace (skipn _ _) with l2 in *
      by (clear; induction l1; [reflexivity | assumption]).
    exists l1, l2. replace c with c_dot by (symmetry; now apply isDot_eq).
    repeat split; auto.
    + now destruct l1.
    + now apply Nat.leb_le.
  - intros (pre & post & -> & Hne & Hpre & Hlen & Hpost).
    exists (List.length pre). split.
    + apply in_seq. rewrite length_app. simpl. lia.
    + unfold domainPatternAt.
      rewrite firstn_app, Nat.sub_diag, firstn_all, app_nil_r.
      replace (skipn _ _) with post
        by (clear; induction pre; [reflexivity | assumption]).
      rewrite nth_error_app2, Nat.sub_diag by lia. cbn [nth_error].
      apply Nat.leb_le in Hlen. rewrite Hpre, Hpost, Hlen.
      destruct pre; [contradiction | reflexivity].
Qed.

Lemma joinDots_cons (c : char16) (g : jsstring) (gs : list jsstring) :
  joinDots ((c :: g) :: gs) = c :: joinDots (g :: gs).
Proof. now destruct gs. Qed.

Lemma joinDots_push (g : jsstring) (gs : list jsstring) :
  gs <> [] -> joinDots (g :: gs) = g ++ c_dot :: joinDots gs.
Proof. now destruct gs. Qed.

Lemma labelChar_domainChar (c : char16) : isLabelCharI c = true -> isDomainCharI c = true.
Proof.
  unfold isLabelCharI, isDomainCharI.
  destruct (isLetterI c), (isDigit c), (c =? c_hyphen), (c =? c_dot);
    reflexivity || discriminate.
Qed.

Lemma domainChar_cases (c : char16) :
  isDomainCharI c = true -> isDot c = true \/ isLabelCharI c = true /\ isDot c = false.
Proof.
  unfold isDomainCharI, isLabelCharI, isDot.
  destruct (isLetterI c), (isDigit c), (c =? c_hyphen), (c =? c_dot);
    (now left) || (now right) || discriminate.
Qed.

Lemma isGroup_true (g : jsstring) :
  isGroup g = true <-> g <> [] /\ forallb isLabelCharI g = true.
Proof.
  unfold isGroup. rewrite andb_true_iff. now destruct g.
Qed.

Lemma isTopLabel_true (t : jsstring) :
  isTopLabel t = true <-> (2 <= List.length t)%nat /\ forallb isLetterI t = true.
Proof. unfold isTopLabel. now rewrite andb_true_iff, Nat.leb_le. Qed.

Lemma joinDots_chars (gs : list jsstring) :
  Forall (fun g => isGroup g = true) gs -> forallb isDomainCharI (joinDots gs) = true.
Proof.
  induction 1 as [|g gs Hg Hgs IH]; [reflexivity|].
  apply isGroup_true in Hg as [_ Hg].
  assert (Hgd : forallb isDomainCharI g = true).
  { rewrite forallb_forall in *. auto using labelChar_domainChar. }
  destruct gs as [|g' gs']; [exact Hgd|].
  rewrite joinDots_push by discriminate.
  rewrite forallb_app, Hgd. simpl. exact IH.
Qed.

Lemma joinDots_nonempty (gs : list jsstring) : Groups gs -> joinDots gs <> [].
Proof.
  intros [Hne Hgs]. destruct Hgs as [|g gs Hg _]; [contradiction|].
  apply isGroup_true in Hg as [Hg _].
  destruct g as [|c g]; [contradiction|]. now rewrite joinDots_cons.
Qed.

Lemma group_of_char (c : char16) (g : jsstring) :
  isLabelCharI c = true -> forallb isLabelCharI g = true -> isGroup (c :: g) = true.
Proof. intros Hc Hg. unfold isGroup. simpl. now rewrite Hc, Hg. Qed.

(** Reading groups off a prefix that the pattern accepts and that, with the
    dot after it, has no two dots in a row. *)
Lemma groups_of_prefix (p : jsstring) :
  p <> [] -> forallb isDomainCharI p = true ->
  includesDotDot (p ++ [c_dot]) = false ->
  exists gs, Groups gs /\ (p = joinDots gs \/ p = c_dot :: joinDots gs).
Proof.
  induction p as [|c p IH]; [contradiction|]. intros _ Hch Hdd.
  simpl in Hch. apply andb_true_iff in Hch as [Hc Hp].
  destruct p as [|c' p'].
  - (* one code unit: it is not a dot *)
    destruct (domainChar_cases c Hc) as [Hd|[Hl Hd]].
    + simpl in Hdd. rewrite Hd in Hdd. discriminate.
    + exists [[c]]. repeat split; [discriminate| |now left].
      repeat constructor. now apply group_of_char.
  - change ((c :: c' :: p') ++ [c_dot]) with (c :: c' :: (p' ++ [c_dot])) in Hdd.
    rewrite includesDotDot_cons in Hdd. apply orb_false_iff in Hdd as [Hcc Hdd].
    destruct (IH ltac:(discriminate) Hp Hdd) as (gs & [Hne Hgs] & Hshape).
    destruct (domainChar_cases c Hc) as [Hd|[Hl Hd]].
    + (* a leading dot: what follows starts a group *)
      rewrite Hd in Hcc. simpl in Hcc.
      destruct Hshape as [Heq|Heq].
      * exists gs. repeat split; auto. right.
        rewrite (isDot_eq c Hd), Heq. reflexivity.
      * injection Heq as Hc' _. subst c'. discriminate.
    + destruct Hshape as [Heq|Heq].
      * (* [c] goes in front of the first group *)
        destruct gs as [|g gs']; [contradiction|].
        exists ((c :: g) :: gs'). repeat split; [discriminate| |left].
        -- inversion Hgs as [|? ? Hg Hrest]; subst.
           apply isGroup_true in Hg as [_ Hg].
           constructor; [now apply group_of_char | exact Hrest].
        -- rewrite joinDots_cons, Heq. reflexivity.
      * (* [c] is a group of its own *)
        exists ([c] :: gs). repeat split; [discriminate| |left].
        -- constructor; [now apply group_of_char | exact Hgs].
        -- rewrite joinDots_push by exact Hne. rewrite Heq. reflexivity.
Qed.

(** What the code accepts as a domain, as a decomposition. *)
Lemma domainOk_parts (d : jsstring) :
  domainOk d = true <->
  (domainParts d \/ exists d', d = c_dot :: d' /\ domainParts d')
  /\ includesDotDot d = false.
Proof.
  unfold domainOk. rewrite andb_true_iff, negb_true_iff.
  split; intros [Hpat Hdd]; (split; [|exact Hdd]).
  - apply domainPattern_split in Hpat
      as (pre & post & -> & Hne & Hpre & Hlen & Hpost).
    assert (Hdd' : includesDotDot (pre ++ [c_dot]) = false).
    { apply includesDotDot_app_l with (b := post). now rewrite <- app_assoc. }
    assert (Ht : isTopLabel post = true) by now apply isTopLabel_true.
    destruct (groups_of_prefix pre Hne Hpre Hdd') as (gs & Hgs & [->| ->]).
    + left. now exists gs, post.
    + right. eexists; split; [reflexivity|]. now exists gs, post.
  - apply domainPattern_split.
    destruct Hpat as [(gs & t & Hgs & Ht & ->)
                     |(d' & -> & gs & t & Hgs & Ht & ->)];
      apply isTopLabel_true in Ht as [Hlen Ht].
    + exists (joinDots gs), t. destruct Hgs as [Hne Hall].
      repeat split; auto using joinDots_chars, joinDots_nonempty.
      apply joinDots_nonempty. now split.
    + exists (c_dot :: joinDots gs), t. destruct Hgs as [Hne Hall].
      repeat split; auto; [discriminate|].
      simpl. now apply joinDots_chars.
Qed.

(** *** Splitting at the dots and joining again *)

Lemma splitDots_not_nil (s : jsstring) : splitDots s <> [].
Proof.
  destruct s as [|c r]; simpl; [discriminate|].
  destruct (isDot c); [discriminate|]. now destruct (splitDots r).
Qed.

Lemma joinDots_splitDots (s : jsstring) : joinDots (splitDots s) = s.
Proof.
  induction s as [|c r IH]; [reflexivity|]. simpl.
  destruct (isDot c) eqn:Ec.
  - rewrite joinDots_push by apply splitDots_not_nil.
    rewrite IH, (isDot_eq c Ec). reflexivity.
  - destruct (splitDots r) as [|g gs] eqn:Er; [now destruct (splitDots_not_nil r)|].
    rewrite joinDots_cons, IH. reflexivity.
Qed.

Lemma splitDots_noDot (g : jsstring) : noDot g -> splitDots g = [g].
Proof.
  unfold noDot. induction g as [|c g IH]; [reflexivity|]. simpl.
  intros H. apply andb_true_iff in H as [Hc Hg]. apply negb_true_iff in Hc.
  now rewrite Hc, (IH Hg).
Qed.

Lemma splitDots_app_dot (g s : jsstring) :
  noDot g -> splitDots (g ++ c_dot :: s) = g :: splitDots s.
Proof.
  unfold noDot. induction g as [|c g IH]; [reflexivity|]. simpl.
  intros H. apply andb_true_iff in H as [Hc Hg]. apply negb_true_iff in Hc.
  now rewrite Hc, (IH Hg).
Qed.

Lemma splitDots_joinDots (gs : list jsstring) :
  gs <> [] -> Forall noDot gs -> splitDots (joinDots gs) = gs.
Proof.
  intros Hne Hall. induction Hall as [|g gs Hg Hgs IH]; [contradiction|].
  destruct gs as [|g' gs']; [now apply splitDots_noDot|].
  rewrite joinDots_push by discriminate.
  rewrite (splitDots_app_dot _ _ Hg), IH by discriminate. reflexivity.
Qed.

Lemma joinDots_snoc (gs : list jsstring) (t : jsstring) :
  gs <> [] -> joinDots (gs ++ [t]) = joinDots gs ++ c_dot :: t.
Proof.
  induction gs as [|g gs IH]; [contradiction|]. intros _.
  destruct gs as [|g' gs']; [reflexivity|].
  change ((g :: g' :: gs') ++ [t]) with (g :: (g' :: gs') ++ [t]).
  rewrite joinDots_push by discriminate.
  rewrite IH by discriminate.
  rewrite (joinDots_push g (g' :: gs')) by discriminate.
  now rewrite <- app_assoc.
Qed.

Lemma labelChar_noDot (g : jsstring) : forallb isLabelCharI g = true -> noDot g.
Proof.
  unfold noDot. rewrite !forallb_forall. intros H c Hc. specialize (H c Hc).
  destruct (isDot c) eqn:Ec; [|reflexivity].
  apply isDot_eq in Ec; subst c. discriminate.
Qed.

Lemma letter_noDot (t : jsstring) : forallb isLetterI t = true -> noDot t.
Proof.
  unfold noDot. rewrite !forallb_forall. intros H c Hc. specialize (H c Hc).
  destruct (isDot c) eqn:Ec; [|reflexivity].
  apply isDot_eq in Ec; subst c. discriminate.
Qed.

(** [domainShape] computes [domainParts]. *)
Lemma domainShape_parts (d : jsstring) : domainShape d = true <-> domainParts d.
Proof.
  unfold domainShape, domainParts. split.
  - intros H. pose proof (joinDots_splitDots d) as Hj.
    rewrite <- (rev_involutive (splitDots d)) in Hj.
    destruct (rev (splitDots d)) as [|t [|g gs]]; try discriminate.
    apply andb_true_iff in H as [Ht Hg].
    exists (rev (g :: gs)), t. repeat split.
    + simpl. now destruct (rev gs).
    + apply Forall_rev, Forall_forall. now apply forallb_forall.
    + exact Ht.
    + rewrite <- Hj. change (rev (t :: g :: gs)) with (rev (g :: gs) ++ [t]).
      apply joinDots_snoc. simpl. now destruct (rev gs).
  - intros (gs & t & [Hne Hgs] & Ht & ->).
    rewrite <- joinDots_snoc by exact Hne.
    rewrite splitDots_joinDots.
    + rewrite rev_app_distr. simpl.
      destruct (rev gs) as [|g gs'] eqn:Er.
      { apply (f_equal (@rev _)) in Er. rewrite rev_involutive in Er. contradiction. }
      rewrite Ht. change (forallb isGroup (g :: gs') = true).
      apply forallb_forall.
      rewrite Forall_forall in Hgs. intros x Hx. apply Hgs.
      apply in_rev. rewrite Er. exact Hx.
    + now destruct gs.
    + apply Forall_app; split.
      * eapply Forall_impl; [|exact Hgs]. intros g Hg.
        apply isGroup_true in Hg as [_ Hg]. now apply labelChar_noDot.
      * constructor; [|constructor]. apply isTopLabel_true in Ht as [_ Ht].
        now apply letter_noDot.
Qed.

(** What the code accepts as a domain. *)
Lemma domainOk_leadingDot (d : jsstring) : domainOk d = domainSpecLeadingDot d.
Proof.
  apply eq_true_iff_eq. rewrite domainOk_parts.
  unfold domainSpecLeadingDot.
  rewrite andb_true_iff, orb_true_iff, negb_true_iff, domainShape_parts.
  split; intros [[H|H] Hdd]; (split; [|exact Hdd]); auto; right.
  - destruct H as (d' & -> & H). simpl. now apply domainShape_parts.
  - destruct d as [|c d']; [discriminate|].
    apply andb_true_iff in H as [Hc H]. apply isDot_eq in Hc; subst c.
    exists d'. split; [reflexivity | now apply domainShape_parts].
Qed.

(** ** The code units of the email *)

Lemma shrinks_Forall (P : char16 -> Prop) (f : jsstring -> jsstring) (s : jsstring) :
  shrinks f -> Forall P s -> Forall P (f s).
Proof. intros Hf Hs. rewrite Forall_forall in *. intros c Hc. apply Hs, Hf, Hc. Qed.

Lemma assoc_In {A : Type} (k : jsstring) (l : list (jsstring * A)) (v : A) :
  assoc k l = Some v -> In v (map snd l).
Proof.
  induction l as [|[k' v'] r IH]; simpl; [discriminate|].
  destruct (eqs k k'); [intros [= ->]; now left | right; auto].
Qed.

Lemma MAP_SINGLE_values (t s : jsstring) :
  assoc t MAP_SINGLE = Some s ->
  nonEmpty s = true /\ addressChars s
  /\ (strictEqAt (VString s) = true -> s = [c_at]).
Proof.
  intros H. apply assoc_In in H. vm_compute in H.
  repeat (destruct H as [<-|H]; [repeat split; try discriminate; auto; repeat constructor|]).
  contradiction.
Qed.

Lemma rewriteSingle_chars (t out : jsstring) (seenAt : bool) :
  assoc t ObjectPrototype = None -> addressChars out ->
  addressChars (fst (rewriteSingle t out seenAt)).
Proof.
  intros Hkey Hout. unfold rewriteSingle, MAP_SINGLE_get.
  destruct (assoc t MAP_SINGLE) as [s|] eqn:Es.
  - destruct (MAP_SINGLE_values t s Es) as (Hne & Hs & _).
    cbn [truthy]. rewrite Hne.
    destruct (strictEqAt (VString s)); [destruct seenAt|]; cbn [fst toStr];
      try exact Hout; apply Forall_app; split; auto; now repeat constructor.
  - rewrite Hkey. cbn [truthy].
    destruct (eqs t [c_dot] || eqs t [c_underscore] || eqs t [c_hyphen]
              || eqs t [c_plus]) eqn:E; cbn [fst]; apply Forall_app; (split; [exact Hout|]).
    + repeat (apply orb_true_iff in E as [E|E]);
        apply eqs_eq in E; subst t; now repeat constructor.
    + apply Forall_forall. intros c Hc. apply filter_In in Hc as [_ Hc].
      unfold isAddressChar. now rewrite Hc.
Qed.

Lemma rewriteTokens_chars (toks : list jsstring) :
  noInheritedKey toks ->
  forall (out : jsstring) (seenAt : bool),
    addressChars out -> addressChars (rewriteTokens toks out seenAt).
Proof.
  unfold noInheritedKey.
  induction toks as [|t|t next rest IH1 IH2] using list_ind2;
    intros Hk out seenAt Hout.
  - exact Hout.
  - inversion Hk as [|? ? Ht _]; subst. cbn [rewriteTokens].
    destruct (IGNORE_has t); [exact Hout|].
    pose proof (rewriteSingle_chars t out seenAt Ht Hout) as H1.
    destruct (rewriteSingle t out seenAt) as [o b]. exact H1.
  - inversion Hk as [|? ? Ht Hk1]; subst.
    inversion Hk1 as [|? ? _ Hk2]; subst.
    cbn [rewriteTokens]. fold (rewriteTokens (next :: rest)).
    destruct (IGNORE_has t); [now apply IH1|].
    assert (Hsym : forall c, isAddressChar c = true -> addressChars (out ++ [c])).
    { intros c Hc. apply Forall_app; split; [exact Hout | now repeat constructor]. }
    destruct (eqs t (lit "guion") && eqs next (lit "bajo")); [now apply IH2, Hsym|].
    destruct (eqs t (lit "guion") && _); [now apply IH2, Hsym|].
    pose proof (rewriteSingle_chars t out seenAt Ht Hout) as H1.
    destruct (rewriteSingle t out seenAt) as [o b]. now apply IH1.
Qed.

Lemma cleanup_chars (out0 : jsstring) : addressChars out0 -> addressChars (cleanup out0).
Proof.
  intros H0. unfold cleanup.
  set (out := dropDotAfterAt (dropDotBeforeAt (collapseDots out0))).
  assert (Hout : addressChars out)
    by (unfold out; do 3 (apply shrinks_Forall; auto with shrink)).
  assert (Hp : Forall addressChars (splitAtFrom [] out))
    by (apply splitAtFrom_chars; auto).
  destruct (includesAt out).
  - unfold splitAt2. apply Forall_app; split; [|apply Forall_app; split].
    + apply shrinks_Forall; auto with shrink. now apply piece_has.
    + now repeat constructor.
    + do 2 (apply shrinks_Forall; auto with shrink). now apply piece_has.
  - apply shrinks_Forall; auto with shrink.
Qed.

(** ** The claims about [formatEmailText] *)

Section Normalize.

Variable unicodeLower : jsstring -> jsstring.
Variable unicodeNFD : jsstring -> jsstring.

Local Abbreviation normalize := (formatEmailText unicodeLower unicodeNFD).
Local Abbreviation normalized := (normalizeString unicodeLower unicodeNFD).

(** The two ways out of [formatEmailText]. *)
Lemma formatEmailText_string (s : jsstring) :
  s <> [] -> normalize (InString s) = Normalized (normalized s).
Proof. destruct s; [contradiction | reflexivity]. Qed.

Lemma formatEmailText_cases (i : jsinput) :
  normalize i = Failed emptyInput
  \/ exists s, i = InString s /\ s <> [] /\ normalize i = Normalized (normalized s).
Proof.
  destruct i as [| b | [|c r]]; try (left; reflexivity).
  - left. now destruct b.
  - right. eexists; repeat split. discriminate.
Qed.

(** C1. For "raul dot smith at gmail dot com" the result has email
    "raul.smith@gmail.com", [isValid] true and confidence 0.99. *)
Theorem C1_raul_dot_smith :
  let r := normalize (InString (lit "raul dot smith at gmail dot com")) in
  resultEmail r = lit "raul.smith@gmail.com"
  /\ resultIsValid r = true
  /\ resultConfidence r = 0.99%Q.
Proof. vm_compute. repeat split. Qed.

(** C2. For every input the email of the result has at most one [@]; the
    input "juan arroba arroba gmail punto com" gives "juan@gmail.com", and
    once one [@] is out ([seenAt] is true) a further at-word adds nothing. *)
Theorem C2_at_most_one_at :
  (forall i : jsinput, (countAt (resultEmail (normalize i)) <= 1)%nat)
  /\ resultEmail (normalize (InString (lit "juan arroba arroba gmail punto com")))
     = lit "juan@gmail.com"
  /\ Forall (fun t => forall (rest : list jsstring) (out : jsstring),
                rewriteTokens (t :: rest) out true = rewriteTokens rest out true)
       [lit "@"; lit "arroba"; lit "at"].
Proof.
  split; [|split].
  - assert (H0 : (countAt (resultEmail (Failed emptyInput)) <= 1)%nat)
      by (cbv; lia).
    intros i. destruct (formatEmailText_cases i) as [->|(s & _ & _ & ->)];
      [exact H0 | apply cleanup_countAt].
  - vm_compute. reflexivity.
  - repeat constructor; intros [|next rest] out; reflexivity.
Qed.

(** C3. For every non-empty string input the function returns (it is
    total) and the confidence of the result is one of 0.0, 0.4, 0.6, 0.8
    and 0.99. *)
Theorem C3_confidence_values (s : jsstring) :
  s <> [] ->
  In (resultConfidence (normalize (InString s))) [0.0; 0.4; 0.6; 0.8; 0.99]%Q.
Proof.
  intros Hs. rewrite (formatEmailText_string s Hs).
  cbn [resultConfidence normalizeString confidence].
  unfold validateEmail.
  destruct (indexOfAt _) as [k|]; cbn [v_confidence In]; [|tauto].
  destruct (localOk _ && domainOk _); [tauto|].
  destruct (localOk _ && _); tauto.
Qed.

(** C4. An absent input, an input that is not a string and the empty
    string all give the error-shaped result: empty email, not valid,
    confidence 0.0, reason "Empty input". *)
Theorem C4_empty_input :
  let e := Failed (mkError [] false 0.0%Q (lit "Empty input")) in
  normalize InAbsent = e
  /\ (forall b : bool, normalize (InOther b) = e)
  /\ normalize (InString []) = e.
Proof.
  cbv zeta. repeat split. intros b. unfold formatEmailText.
  now rewrite orb_true_r.
Qed.

(** C5. The token "guion" followed by the token "bajo" is rewritten to one
    underscore and both tokens are consumed, although "guion" alone maps to
    a hyphen; "guion bajo test arroba dominio punto com" gives
    "_test@dominio.com". *)
Theorem C5_guion_bajo :
  (forall (rest : list jsstring) (out : jsstring) (seenAt : bool),
      rewriteTokens (lit "guion" :: lit "bajo" :: rest) out seenAt
      = rewriteTokens rest (out ++ lit "_") seenAt)
  /\ MAP_SINGLE_get (lit "guion") = VString (lit "-")
  /\ resultEmail
       (normalize (InString (lit "guion bajo test arroba dominio punto com")))
     = lit "_test@dominio.com".
Proof.
  split; [|split].
  - intros rest out seenAt. reflexivity.
  - reflexivity.
  - vm_compute. reflexivity.
Qed.

(** C7. For every input, the [domain] of the result, when the result has
    one, has no two dots in a row. *)
Theorem C7_domain_no_dotdot (i : jsinput) (d : jsstring) :
  resultDomain (normalize i) = Some d -> includesDotDot d = false.
Proof.
  destruct (formatEmailText_cases i) as [->|(s & _ & _ & ->)]; [discriminate|].
  cbn [resultDomain normalizeString domain]. intros [= <-].
  destruct (cleanup_shape (rewriteTokens (rawTokens unicodeLower unicodeNFD s) [] false))
    as [(l & dm & -> & Hl & _ & Hdd)|H].
  - now rewrite (proj2 (validateEmail_parts l dm Hl)).
  - unfold validateEmail.
    rewrite (proj2 (indexOfAt_None _) (proj2 (includesAt_false _) H)). reflexivity.
Qed.

(** C8. A non-empty input made of white space only is not answered with
    the "Empty input" error: the token list is empty and the result is the
    raw input with an empty email, not valid, confidence 0.4 and empty
    [local] and [domain]. *)
Theorem C8_blank_input (s : jsstring) :
  s <> [] -> forallb isSpace s = true ->
  rawTokens unicodeLower unicodeNFD s = []
  /\ normalize (InString s) = Normalized (mkResult s [] false 0.4%Q [] []).
Proof.
  intros Hs Hsp. rewrite (formatEmailText_string s Hs).
  unfold normalizeString, rawTokens. rewrite (trim_spaces _ Hsp).
  split; reflexivity.
Qed.

(** C10. For every non-empty string input: when the email has an [@], it
    is [local], then [@], then [domain], with no [@] in [local] (so [local]
    is what precedes the first [@] and [domain] what follows it); when it
    has none, [local] and [domain] are empty. *)
Theorem C10_local_domain_consistent (s : jsstring) :
  s <> [] ->
  let r := normalized s in
  (includesAt (email r) = true ->
     email r = local r ++ lit "@" ++ domain r /\ includesAt (local r) = false)
  /\ (includesAt (email r) = false -> local r = [] /\ domain r = []).
Proof.
  intros _ r. subst r. unfold normalizeString.
  cbn [email local domain].
  set (e := cleanup _). unfold validateEmail.
  destruct (indexOfAt e) as [k|] eqn:Ek; cbn [v_local v_domain].
  - split.
    + intros _. destruct (indexOfAt_Some e k Ek) as [Heq Hno].
      split; [exact Heq | now apply includesAt_false].
    + intros H. apply indexOfAt_None in H. congruence.
  - split; [|easy]. apply indexOfAt_None in Ek. congruence.
Qed.

End Normalize.

(** ** The claims about the code units of the email *)

Section AddressChars.

Variable unicodeLower : jsstring -> jsstring.
Variable unicodeNFD : jsstring -> jsstring.

Local Abbreviation normalized := (normalizeString unicodeLower unicodeNFD).

(** When no token is the name of a property of [Object.prototype], the
    email is made of [a-z], [0-9], [.], [_], [+], [-] and [@] only. *)
Lemma email_chars_without_inherited_keys (s : jsstring) :
  noInheritedKey (rawTokens unicodeLower unicodeNFD s) ->
  forallb isAddressChar (email (normalized s)) = true.
Proof.
  intros Hk. apply forallb_forall, Forall_forall.
  unfold normalizeString. cbn [email].
  apply cleanup_chars, rewriteTokens_chars; [exact Hk | constructor].
Qed.

(** C9, at the input "constructor". The token is no own key of
    [MAP_SINGLE], but [MAP_SINGLE[t]] finds the inherited property
    [constructor], the function [Object], which is truthy and is appended
    to [out] as text: the email has capitals, blanks, brackets and braces. *)
Theorem C9_constructor_token_leaks :
  let r := normalized (lit "constructor") in
  email r = lit "function Object() { [native code] }"
  /\ forallb isAddressChar (email r) = false
  /\ In (N_of_ascii "O") (email r) /\ In (N_of_ascii " ") (email r).
Proof. vm_compute. repeat split; auto 30. Qed.

End AddressChars.

(** ** Instances of the conditional statements *)

Lemma C3_confidence_values_witness :
  lit "ventas empresa" <> []
  /\ In (resultConfidence
           (formatEmailText (fun s => s) (fun s => s) (InString (lit "ventas empresa"))))
        [0.0; 0.4; 0.6; 0.8; 0.99]%Q.
Proof.
  assert (H : lit "ventas empresa" <> []) by discriminate.
  split; [exact H | exact (C3_confidence_values _ _ _ H)].
Defined.

Lemma C7_domain_no_dotdot_witness :
  resultDomain
    (formatEmailText (fun s => s) (fun s => s)
       (InString (lit "a arroba b punto punto com")))
  = Some (lit "b.com")
  /\ includesDotDot (lit "b.com") = false.
Proof.
  assert (H : resultDomain
                (formatEmailText (fun s => s) (fun s => s)
                   (InString (lit "a arroba b punto punto com")))
              = Some (lit "b.com")) by (vm_compute; reflexivity).
  split; [exact H | exact (C7_domain_no_dotdot _ _ _ _ H)].
Defined.

Lemma C8_blank_input_witness :
  rawTokens (fun s => s) (fun s => s) (lit " ") = []
  /\ formatEmailText (fun s => s) (fun s => s) (InString (lit " "))
     = Normalized (mkResult (lit " ") [] false 0.4%Q [] []).
Proof.
  apply C8_blank_input; [discriminate | reflexivity].
Defined.

Lemma C10_local_domain_consistent_witness :
  let r := normalizeString (fun s => s) (fun s => s) (lit "juan arroba gmail punto com") in
  (includesAt (email r) = true ->
     email r = local r ++ lit "@" ++ domain r /\ includesAt (local r) = false)
  /\ (includesAt (email r) = false -> local r = [] /\ domain r = []).
Proof.
  apply C10_local_domain_consistent. discriminate.
Defined.

(** * Further properties of the code *)

(** ** [validateEmail]: what the confidence tells *)

Lemma validateEmail_no_at (e : jsstring) :
  v_confidence (validateEmail e) = 0.4%Q <-> includesAt e = false.
Proof.
  unfold validateEmail. destruct (indexOfAt e) as [k|] eqn:Ek.
  - cbn [v_confidence]. split.
    + destruct (localOk _ && domainOk _); [discriminate|].
      destruct (localOk _ && _); discriminate.
    + intros H. apply indexOfAt_None in H. congruence.
  - apply indexOfAt_None in Ek. now split.
Qed.

(** X1. The confidence returned by [validateEmail] tells the case apart:
    0.4 exactly when the candidate has no [@], 0.99 exactly when it is
    valid, 0.8 exactly when the local part is fine and the domain is
    non-empty but refused, 0.6 exactly when there is an [@] and the local
    part is refused or the domain is empty. *)
Theorem X1_confidence_levels (e : jsstring) :
  let v := validateEmail e in
  (v_confidence v = 0.4%Q <-> includesAt e = false)
  /\ (v_confidence v = 0.99%Q <-> v_isValid v = true)
  /\ (v_confidence v = 0.8%Q <->
        includesAt e = true /\ localOk (v_local v) = true
        /\ v_domain v <> [] /\ domainOk (v_domain v) = false)
  /\ (v_confidence v = 0.6%Q <->
        includesAt e = true /\ (localOk (v_local v) = false \/ v_domain v = [])).
Proof.
  cbv zeta. unfold validateEmail.
  destruct (indexOfAt e) as [k|] eqn:Ek.
  - assert (Hat : includesAt e = true).
    { destruct (includesAt e) eqn:E; [reflexivity|].
      apply indexOfAt_None in E. congruence. }
    cbn [v_confidence v_isValid v_local v_domain]. rewrite Hat.
    set (l := firstn k e). set (d := skipn (S k) e).
    destruct d as [|c d'];
      [change (domainOk []) with false | destruct (domainOk (c :: d'))];
      destruct (localOk l); cbn;
      repeat split; intros; try discriminate; try tauto;
      repeat match goal with
             | H : _ /\ _ |- _ => destruct H
             | H : _ \/ _ |- _ => destruct H
             end; try discriminate; try contradiction; auto.
  - apply indexOfAt_None in Ek. rewrite Ek. cbn.
    repeat split; intros; try discriminate; try tauto;
      repeat match goal with H : _ /\ _ |- _ => destruct H end; discriminate.
Qed.

(** X2. A candidate that [validateEmail] reports valid has exactly one [@]. *)
Theorem X2_valid_has_one_at (e : jsstring) :
  v_isValid (validateEmail e) = true -> countAt e = 1%nat.
Proof.
  unfold validateEmail. destruct (indexOfAt e) as [k|] eqn:Ek; [|discriminate].
  cbn [v_isValid]. intros H. apply andb_true_iff in H as [_ Hd].
  destruct (indexOfAt_Some e k Ek) as [Heq Hl].
  unfold domainOk in Hd. apply andb_true_iff in Hd as [Hd _].
  apply domainPattern_split in Hd as (pre & post & Hdp & _ & Hpre & _ & Hpost).
  assert (Hnd : noAt (skipn (S k) e)).
  { rewrite Hdp. intros c Hc. rewrite forallb_forall in Hpre, Hpost.
    destruct (isAt c) eqn:Ec; [|reflexivity]. apply isAt_eq in Ec; subst c.
    apply in_app_or in Hc as [Hc|[Hc|Hc]];
      [apply Hpre in Hc | discriminate | apply Hpost in Hc]; discriminate. }
  rewrite Heq, countAt_app. change (c_at :: skipn (S k) e) with ([c_at] ++ skipn (S k) e).
  rewrite countAt_app, (countAt_noAt _ Hl), (countAt_noAt _ Hnd). reflexivity.
Qed.

Lemma X2_valid_has_one_at_witness :
  v_isValid (validateEmail (lit "raul.smith@gmail.com")) = true
  /\ countAt (lit "raul.smith@gmail.com") = 1%nat.
Proof.
  assert (H : v_isValid (validateEmail (lit "raul.smith@gmail.com")) = true)
    by reflexivity.
  split; [exact H | exact (X2_valid_has_one_at _ H)].
Defined.

(** ** Where the separator comes from *)

Lemma assoc_In_pair {A : Type} (k : jsstring) (l : list (jsstring * A)) (v : A) :
  assoc k l = Some v -> In (k, v) l.
Proof.
  induction l as [|[k' v'] r IH]; simpl; [discriminate|].
  destruct (eqs k k') eqn:E; [|right; auto].
  apply eqs_eq in E; subst k'. intros [= ->]. now left.
Qed.

Lemma includesAt_app (a b : jsstring) :
  includesAt (a ++ b) = includesAt a || includesAt b.
Proof. apply existsb_app. Qed.

(** The table gives [@] for the three at-words and for nothing else, the
    inherited properties included. *)
Lemma strictEqAt_atWord (t : jsstring) :
  strictEqAt (MAP_SINGLE_get t) = isAtWord t.
Proof.
  apply eq_true_iff_eq. split.
  - unfold MAP_SINGLE_get. destruct (assoc t MAP_SINGLE) as [s|] eqn:Es.
    + apply assoc_In_pair in Es. vm_compute in Es.
      repeat (destruct Es as [Es|Es];
              [injection Es as <- <-; vm_compute; intros H; exact H|]).
      contradiction.
    + destruct (assoc t ObjectPrototype) as [v|] eqn:Ev; [|discriminate].
      apply assoc_In in Ev. vm_compute in Ev.
      repeat (destruct Ev as [<-|Ev]; [discriminate|]). contradiction.
  - unfold isAtWord. intros H.
    repeat (apply orb_true_iff in H as [H|H]); apply eqs_eq in H; subst t; reflexivity.
Qed.

(** Whatever else the table gives is text without [@]. *)
Lemma sym_noAt (t : jsstring) :
  isAtWord t = false -> includesAt (toStr (MAP_SINGLE_get t)) = false.
Proof.
  rewrite <- strictEqAt_atWord. unfold MAP_SINGLE_get.
  destruct (assoc t MAP_SINGLE) as [s|] eqn:Es.
  - apply assoc_In in Es. vm_compute in Es.
    repeat (destruct Es as [<-|Es]; [vm_compute; intros H; congruence|]).
    contradiction.
  - intros _. destruct (assoc t ObjectPrototype) as [v|] eqn:Ev; [|reflexivity].
    apply assoc_In in Ev. vm_compute in Ev.
    repeat (destruct Ev as [<-|Ev]; [reflexivity|]). contradiction.
Qed.

Lemma atWord_truthy (t : jsstring) :
  isAtWord t = true -> MAP_SINGLE_get t = VString [c_at].
Proof.
  unfold isAtWord. intros H.
  repeat (apply orb_true_iff in H as [H|H]); apply eqs_eq in H; subst t; reflexivity.
Qed.

(** One turn of the loop on a single token: [seenAt] stays the record of
    an [@] in [out]. *)
Lemma rewriteSingle_at (t out : jsstring) (seenAt : bool) :
  seenAt = includesAt out ->
  let '(out', seenAt') := rewriteSingle t out seenAt in
  seenAt' = includesAt out' /\ seenAt' = seenAt || isAtWord t.
Proof.
  intros Hinv. unfold rewriteSingle.
  destruct (isAtWord t) eqn:Et.
  - rewrite (atWord_truthy t Et). cbn [truthy nonEmpty strictEqAt eqs].
    rewrite N.eqb_refl. simpl andb. cbv iota.
    destruct seenAt; [now split|].
    split; [|reflexivity]. rewrite includesAt_app, orb_true_r. reflexivity.
  - pose proof (sym_noAt t Et) as Hsym. rewrite <- strictEqAt_atWord in Et.
    rewrite Et, orb_false_r.
    destruct (truthy (MAP_SINGLE_get t)).
    + split; [|reflexivity]. now rewrite includesAt_app, Hsym, orb_false_r.
    + assert (Hx : forall x, noAt x -> seenAt = includesAt (out ++ x)).
      { intros x Hx. apply includesAt_false in Hx.
        now rewrite includesAt_app, Hx, orb_false_r. }
      destruct (eqs t [c_dot] || eqs t [c_underscore] || eqs t [c_hyphen]
                || eqs t [c_plus]) eqn:E; (split; [apply Hx|reflexivity]).
      * repeat (apply orb_true_iff in E as [E|E]);
          apply eqs_eq in E; subst t; intros c [<-|[]]; reflexivity.
      * intros c Hc. apply filter_In in Hc as [_ Hc].
        destruct (isAt c) eqn:Ec; [|reflexivity].
        apply isAt_eq in Ec; subst c. discriminate.
Qed.

Lemma ignored_not_atWord (t : jsstring) : IGNORE_has t = true -> isAtWord t = false.
Proof.
  unfold IGNORE_has. intros H. apply existsb_exists in H as (k & Hk & E).
  apply eqs_eq in E; subst k. vm_compute in Hk.
  repeat (destruct Hk as [<-|Hk]; [reflexivity|]). contradiction.
Qed.

Lemma rewriteTokens_at (toks : list jsstring) :
  forall (out : jsstring) (seenAt : bool),
    seenAt = includesAt out ->
    includesAt (rewriteTokens toks out seenAt) = seenAt || existsb isAtWord toks.
Proof.
  assert (Hsym : forall out c, isAt c = false ->
                   includesAt (out ++ [c]) = includesAt out).
  { intros out c Hc. rewrite includesAt_app. cbn. now rewrite Hc, !orb_false_r. }
  induction toks as [|t|t next rest IH1 IH2] using list_ind2; intros out seenAt Hinv.
  - cbn. now rewrite orb_false_r.
  - cbn [rewriteTokens existsb]. rewrite orb_false_r.
    destruct (IGNORE_has t) eqn:Ei.
    + now rewrite (ignored_not_atWord t Ei), orb_false_r.
    + pose proof (rewriteSingle_at t out seenAt Hinv) as H.
      destruct (rewriteSingle t out seenAt) as [o b]. destruct H as [H1 H2].
      now rewrite <- H1.
  - cbn [rewriteTokens]. fold (rewriteTokens (next :: rest)).
    change (existsb isAtWord (t :: next :: rest))
      with (isAtWord t || existsb isAtWord (next :: rest)).
    destruct (IGNORE_has t) eqn:Ei.
    { rewrite (ignored_not_atWord t Ei). now apply IH1. }
    destruct (eqs t (lit "guion") && eqs next (lit "bajo")) eqn:E1.
    { apply andb_true_iff in E1 as [Ht Hn].
      apply eqs_eq in Ht; apply eqs_eq in Hn; subst t next.
      rewrite IH2 by (now rewrite Hsym). reflexivity. }
    destruct (eqs t (lit "guion") && (eqs next (lit "medio") || eqs next (lit "alto")))
      eqn:E2.
    { apply andb_true_iff in E2 as [Ht Hn]. apply eqs_eq in Ht; subst t.
      rewrite IH2 by (now rewrite Hsym).
      apply orb_true_iff in Hn as [Hn|Hn]; apply eqs_eq in Hn; subst next; reflexivity. }
    pose proof (rewriteSingle_at t out seenAt Hinv) as H.
    destruct (rewriteSingle t out seenAt) as [o b]. destruct H as [H1 H2].
    etransitivity; [exact (IH1 o b H1)|]. rewrite H2. now rewrite orb_assoc.
Qed.

(** The clean-up neither loses the separator nor makes one. *)
Lemma collapseDotsFrom_keepsAt (b : bool) : keepsAt (collapseDotsFrom b).
Proof.
  intros s; revert b; induction s as [|c r IH]; intros b; [easy|].
  unfold includesAt in *. simpl. destruct (isDot c) eqn:Ed.
  - rewrite (isDot_eq c Ed). simpl. destruct b; simpl; apply IH.
  - simpl. destruct (isAt c); [reflexivity | apply IH].
Qed.

Lemma dropDotBeforeAt_keepsAt : keepsAt dropDotBeforeAt.
Proof.
  intros s; induction s as [|x|x y r IH1 IH2] using list_ind2; try easy.
  cbn [dropDotBeforeAt]. fold (dropDotBeforeAt (y :: r)).
  destruct (isDot x && isAt y) eqn:E; [reflexivity|].
  unfold includesAt in *. cbn [existsb]. fold (existsb isAt (y :: r)).
  destruct (isAt x); [reflexivity | exact IH1].
Qed.

Lemma dropDotAfterAt_keepsAt : keepsAt dropDotAfterAt.
Proof.
  intros s; induction s as [|c r IH]; [easy|].
  unfold includesAt in *. cbn [dropDotAfterAt existsb].
  destruct (isAt c) eqn:Ec.
  - intros _. destruct r as [|d r']; [reflexivity|]. now destruct (isDot d).
  - cbn [existsb]. rewrite Ec. exact IH.
Qed.

Lemma cleanup_includesAt (out0 : jsstring) :
  includesAt (cleanup out0) = includesAt out0.
Proof.
  unfold cleanup.
  set (out := dropDotAfterAt (dropDotBeforeAt (collapseDots out0))).
  assert (Hout : includesAt out = includesAt out0).
  { destruct (includesAt out0) eqn:E.
    - now apply dropDotAfterAt_keepsAt, dropDotBeforeAt_keepsAt,
        (collapseDotsFrom_keepsAt false).
    - apply includesAt_false. apply includesAt_false in E.
      unfold out. do 3 (apply shrinks_noAt; auto with shrink). }
  rewrite <- Hout. destruct (includesAt out) eqn:E.
  - rewrite includesAt_app. cbn. now rewrite orb_true_r.
  - apply includesAt_false, shrinks_noAt; auto with shrink.
    now apply includesAt_false.
Qed.

Section Separator.

Variable unicodeLower : jsstring -> jsstring.
Variable unicodeNFD : jsstring -> jsstring.

Local Abbreviation normalized := (normalizeString unicodeLower unicodeNFD).
Local Abbreviation tokens := (rawTokens unicodeLower unicodeNFD).

Local Abbreviation normalize := (formatEmailText unicodeLower unicodeNFD).

(** X3. For a non-empty string, the email that [formatEmailText] returns has
    an [@] exactly when one of the tokens is "@", "arroba" or "at".  An [@]
    typed inside a longer token (as in "raul@gmail.com") is deleted with the
    other unsupported characters, and the confidence is 0.4 exactly when no
    token is an at-word. *)
Theorem X3_at_from_at_word (s : jsstring) :
  s <> [] ->
  includesAt (resultEmail (normalize (InString s))) = existsb isAtWord (tokens s)
  /\ (resultConfidence (normalize (InString s)) = 0.4%Q
      <-> existsb isAtWord (tokens s) = false).
Proof.
  intros Hs. destruct s as [|c0 s0]; [contradiction|].
  change (normalize (InString (c0 :: s0))) with (Normalized (normalized (c0 :: s0))).
  cbn [resultEmail resultConfidence].
  set (s := c0 :: s0).
  assert (H : includesAt (email (normalized s)) = existsb isAtWord (tokens s)).
  { unfold normalizeString. cbn [email].
    rewrite cleanup_includesAt. now rewrite rewriteTokens_at. }
  split; [exact H|]. rewrite <- H.
  unfold normalizeString. cbn [email confidence].
  apply validateEmail_no_at.
Qed.

End Separator.

Lemma X3_at_from_at_word_witness :
  lit "raul@gmail.com" <> []
  /\ includesAt (resultEmail (formatEmailText (fun s => s) (fun s => s)
                               (InString (lit "raul@gmail.com"))))
     = existsb isAtWord (rawTokens (fun s => s) (fun s => s) (lit "raul@gmail.com"))
  /\ (resultConfidence (formatEmailText (fun s => s) (fun s => s)
                          (InString (lit "raul@gmail.com"))) = 0.4%Q
      <-> existsb isAtWord (rawTokens (fun s => s) (fun s => s) (lit "raul@gmail.com"))
          = false).
Proof.
  assert (H : lit "raul@gmail.com" <> []) by discriminate.
  split; [exact H | exact (X3_at_from_at_word _ _ _ H)].
Defined.

(** ** Dots in the cleaned string *)

Lemma includesDotDot_step (c : char16) (r : jsstring) :
  includesDotDot (c :: r) = (isDot c && startsWithDot r) || includesDotDot r.
Proof. destruct r; [now rewrite andb_false_r | reflexivity]. Qed.

Lemma includesDotDot_tail (c : char16) (r : jsstring) :
  includesDotDot (c :: r) = false -> includesDotDot r = false.
Proof. rewrite includesDotDot_step. intros H. now apply orb_false_iff in H. Qed.

Lemma includesDotDot_app_r (a b : jsstring) :
  includesDotDot (a ++ b) = false -> includesDotDot b = false.
Proof.
  induction a as [|c a IH]; [easy|]. intros H. apply IH.
  now apply includesDotDot_tail with (c := c).
Qed.

Lemma includesDotDot_app_sep (a b : jsstring) (c : char16) :
  isDot c = false -> includesDotDot a = false -> includesDotDot b = false ->
  includesDotDot (a ++ c :: b) = false.
Proof.
  intros Hc Ha Hb. induction a as [|x a IH].
  - cbn [app]. now rewrite includesDotDot_step, Hc, Hb.
  - cbn [app]. rewrite includesDotDot_step in *.
    apply orb_false_iff in Ha as [Hx Ha]. rewrite (IH Ha), orb_false_r.
    destruct a as [|y a']; cbn [app startsWithDot] in *; [|exact Hx].
    now rewrite Hc, andb_false_r.
Qed.

(** The head of what [replace(/\.@/g, "@")] and [replace(/@\.?/g, "@")]
    return is no dot unless the head of the argument is one. *)
Lemma dropDotBeforeAt_head (s : jsstring) :
  startsWithDot s = false -> startsWithDot (dropDotBeforeAt s) = false.
Proof.
  destruct s as [|x [|y r]]; try easy. cbn [dropDotBeforeAt startsWithDot].
  intros Hx. now rewrite Hx.
Qed.

Lemma dropDotAfterAt_head (s : jsstring) :
  startsWithDot s = false -> startsWithDot (dropDotAfterAt s) = false.
Proof.
  destruct s as [|x r]; [easy|]. cbn [dropDotAfterAt startsWithDot]. intros Hx.
  destruct (isAt x); [|exact Hx]. destruct r as [|d r']; [reflexivity|].
  now destruct (isDot d).
Qed.

Lemma dropDotBeforeAt_eq (x y : char16) (r : jsstring) :
  dropDotBeforeAt (x :: y :: r)
  = if isDot x && isAt y then c_at :: dropDotBeforeAt r
    else x :: dropDotBeforeAt (y :: r).
Proof. reflexivity. Qed.

Lemma dropDotAfterAt_eq (x y : char16) (r : jsstring) :
  dropDotAfterAt (x :: y :: r)
  = if isAt x
    then (if isDot y then c_at :: dropDotAfterAt r
          else c_at :: dropDotAfterAt (y :: r))
    else x :: dropDotAfterAt (y :: r).
Proof. reflexivity. Qed.

Lemma dropDotBeforeAt_no_dotdot (s : jsstring) :
  includesDotDot s = false -> includesDotDot (dropDotBeforeAt s) = false.
Proof.
  induction s as [|x|x y r IH1 IH2] using list_ind2; try easy.
  intros H. pose proof (includesDotDot_tail _ _ H) as H1.
  pose proof (includesDotDot_tail _ _ H1) as H2.
  rewrite dropDotBeforeAt_eq.
  destruct (isDot x && isAt y) eqn:E.
  - rewrite includesDotDot_step. now rewrite (IH2 H2).
  - rewrite includesDotDot_step, (IH1 H1), orb_false_r.
    rewrite includesDotDot_step in H. apply orb_false_iff in H as [H _].
    destruct (isDot x); [|reflexivity]. cbn [andb startsWithDot] in *.
    now apply dropDotBeforeAt_head.
Qed.

Lemma dropDotAfterAt_no_dotdot (s : jsstring) :
  includesDotDot s = false -> includesDotDot (dropDotAfterAt s) = false.
Proof.
  induction s as [|x|x y r IH1 IH2] using list_ind2.
  - easy.
  - intros _. cbn. now destruct (isAt x).
  - intros H. pose proof (includesDotDot_tail _ _ H) as H1.
    pose proof (includesDotDot_tail _ _ H1) as H2.
    rewrite dropDotAfterAt_eq.
    destruct (isAt x) eqn:Ex.
    + destruct (isDot y); rewrite includesDotDot_step;
        [now rewrite (IH2 H2) | now rewrite (IH1 H1)].
    + rewrite includesDotDot_step, (IH1 H1), orb_false_r.
      rewrite includesDotDot_step in H. apply orb_false_iff in H as [H _].
      destruct (isDot x); [|reflexivity]. cbn [andb startsWithDot] in *.
      now apply dropDotAfterAt_head.
Qed.

Lemma splitAtFrom_no_dotdot (s cur : jsstring) :
  includesDotDot (cur ++ s) = false ->
  Forall (fun p => includesDotDot p = false) (splitAtFrom cur s).
Proof.
  revert cur; induction s as [|c r IH]; intros cur H; simpl.
  - rewrite app_nil_r in H. now constructor.
  - destruct (isAt c).
    + constructor; [now apply includesDotDot_app_l in H|].
      apply (IH []). apply includesDotDot_app_r in H.
      now apply includesDotDot_tail in H.
    + apply IH. now rewrite <- app_assoc.
Qed.

Lemma dropWhile_no_dotdot (p : char16 -> bool) (s : jsstring) :
  includesDotDot s = false -> includesDotDot (dropWhile p s) = false.
Proof.
  induction s as [|c r IH]; [easy|]. intros H. simpl.
  destruct (p c); [|exact H]. now apply IH, includesDotDot_tail with (c := c).
Qed.

Lemma dropTrailingDots_head (s : jsstring) :
  startsWithDot s = false -> startsWithDot (dropTrailingDots s) = false.
Proof.
  destruct s as [|c r]; [easy|]. cbn [dropTrailingDots startsWithDot forallb].
  intros Hc. now rewrite Hc.
Qed.

Lemma dropTrailingDots_no_dotdot (s : jsstring) :
  includesDotDot s = false -> includesDotDot (dropTrailingDots s) = false.
Proof.
  induction s as [|c r IH]; [easy|]. intros H.
  cbn [dropTrailingDots]. destruct (forallb isDot (c :: r)); [reflexivity|].
  rewrite includesDotDot_step in *. apply orb_false_iff in H as [Hc Hr].
  rewrite (IH Hr), orb_false_r.
  destruct (isDot c); [|reflexivity]. cbn [andb] in *.
  now apply dropTrailingDots_head.
Qed.

Lemma stripDots_no_dotdot (s : jsstring) :
  includesDotDot s = false -> includesDotDot (stripDots s) = false.
Proof.
  intros H. now apply dropTrailingDots_no_dotdot, dropWhile_no_dotdot.
Qed.

Lemma dropWhile_isDot_head (s : jsstring) : startsWithDot (dropWhile isDot s) = false.
Proof.
  induction s as [|c r IH]; [reflexivity|]. simpl.
  destruct (isDot c) eqn:E; [exact IH | exact E].
Qed.

Lemma dropTrailingDots_nil (s : jsstring) :
  dropTrailingDots s = [] -> forallb isDot s = true.
Proof.
  destruct s as [|c r]; [reflexivity|]. cbn [dropTrailingDots].
  now destruct (forallb isDot (c :: r)).
Qed.

Lemma dropTrailingDots_end (s : jsstring) : endsWithDot (dropTrailingDots s) = false.
Proof.
  unfold endsWithDot. induction s as [|c r IH]; [reflexivity|].
  cbn [dropTrailingDots]. destruct (forallb isDot (c :: r)) eqn:E; [reflexivity|].
  destruct (dropTrailingDots r) as [|d t] eqn:Er.
  - apply dropTrailingDots_nil in Er. cbn [forallb] in E. rewrite Er, andb_true_r in E.
    exact E.
  - exact IH.
Qed.

Lemma stripDots_edges (s : jsstring) : dotAtEdge (stripDots s) = false.
Proof.
  unfold dotAtEdge, stripDots.
  rewrite dropTrailingDots_head by apply dropWhile_isDot_head.
  apply dropTrailingDots_end.
Qed.

(** A string without two dots in a row has no run to collapse. *)
Lemma collapseDotsFrom_id (s : jsstring) (b : bool) :
  includesDotDot s = false -> (b = true -> startsWithDot s = false) ->
  collapseDotsFrom b s = s.
Proof.
  revert b; induction s as [|c r IH]; intros b Hdd Hb; [reflexivity|].
  rewrite includesDotDot_step in Hdd. apply orb_false_iff in Hdd as [Hc Hr].
  simpl. destruct (isDot c) eqn:Ec.
  - destruct b; [specialize (Hb eq_refl); cbn in Hb; congruence|].
    rewrite (isDot_eq c Ec). f_equal. now apply IH.
  - f_equal. apply IH; [exact Hr | discriminate].
Qed.

Lemma collapseDots_id (s : jsstring) : includesDotDot s = false -> collapseDots s = s.
Proof. intros H. apply collapseDotsFrom_id; [exact H | discriminate]. Qed.

Lemma last_app_cons (l d : jsstring) (c x : char16) :
  last (l ++ c :: d) x = last (c :: d) x.
Proof.
  induction l as [|y l IH]; [reflexivity|].
  cbn [app]. rewrite <- IH. now destruct (l ++ c :: d) eqn:E; [destruct l|].
Qed.

Lemma edges_of_address (l d : jsstring) :
  dotAtEdge l = false -> dotAtEdge d = false -> dotAtEdge (l ++ c_at :: d) = false.
Proof.
  unfold dotAtEdge, endsWithDot. intros Hl Hd.
  apply orb_false_iff in Hl as [Hl _]. apply orb_false_iff in Hd as [_ Hd].
  apply orb_false_iff. split.
  - now destruct l.
  - rewrite last_app_cons.
    destruct d as [|x d']; [reflexivity|]. exact Hd.
Qed.

Lemma basic_cleanup_no_dotdot (out0 : jsstring) :
  includesDotDot (dropDotAfterAt (dropDotBeforeAt (collapseDots out0))) = false.
Proof.
  apply dropDotAfterAt_no_dotdot, dropDotBeforeAt_no_dotdot, collapseDots_no_dotdot.
Qed.

(** The pieces of [split("@", 2)] after the three replacements of line 53
    have no run of dots. *)
Lemma piece_no_dotdot (out0 : jsstring) (k : nat) :
  includesDotDot
    (orEmpty (nth_error
                (splitAt2 (dropDotAfterAt (dropDotBeforeAt (collapseDots out0)))) k))
  = false.
Proof.
  apply (piece_has (fun p => includesDotDot p = false)); [reflexivity|].
  apply splitAtFrom_no_dotdot, basic_cleanup_no_dotdot.
Qed.

(** The cleaned string in full: its parts, and where its dots are not. *)
Lemma cleanup_parts (out0 : jsstring) :
  includesDotDot (cleanup out0) = false
  /\ dotAtEdge (cleanup out0) = false
  /\ (includesAt (cleanup out0) = true ->
      exists l d, cleanup out0 = l ++ c_at :: d /\ noAt l /\ noAt d
                  /\ dotAtEdge l = false /\ dotAtEdge d = false).
Proof.
  pose proof (cleanup_includesAt out0) as Hat.
  pose proof (piece_no_dotdot out0 0) as H0.
  pose proof (piece_no_dotdot out0 1) as H1.
  pose proof (basic_cleanup_no_dotdot out0) as Hout.
  unfold cleanup in *.
  set (out := dropDotAfterAt (dropDotBeforeAt (collapseDots out0))) in *.
  destruct (includesAt out) eqn:E.
  - assert (Hn : forall k, noAt (stripDots (orEmpty (nth_error (splitAt2 out) k)))).
    { intros k. apply shrinks_noAt; auto with shrink. unfold splitAt2.
      apply piece_has; [apply noAt_nil | apply splitAtFrom_noAt, noAt_nil]. }
    pose proof (Hn 0%nat) as Hnl. pose proof (Hn 1%nat) as Hnd.
    set (l := stripDots (orEmpty (nth_error (splitAt2 out) 0))) in *.
    set (d := stripDots (orEmpty (nth_error (splitAt2 out) 1))) in *.
    assert (Hl : includesDotDot l = false) by now apply stripDots_no_dotdot.
    assert (Hd : includesDotDot d = false) by now apply stripDots_no_dotdot.
    rewrite (collapseDots_id d Hd).
    assert (Hel : dotAtEdge l = false) by apply stripDots_edges.
    assert (Hed : dotAtEdge d = false) by apply stripDots_edges.
    split; [|split].
    + now apply includesDotDot_app_sep.
    + now apply edges_of_address.
    + intros _. exists l, d. now repeat split.
  - split; [|split].
    + now apply stripDots_no_dotdot.
    + apply stripDots_edges.
    + intros H.
      assert (Hno : includesAt (stripDots out) = false)
        by (apply includesAt_false, shrinks_noAt; auto with shrink;
            now apply includesAt_false).
      congruence.
Qed.

Lemma localOk_pattern (l : jsstring) : localOk l = localPattern l.
Proof. unfold localOk, localPattern. now destruct l; rewrite ?andb_true_r. Qed.

Lemma domainShape_no_leading_dot (d : jsstring) :
  startsWithDot d = true -> domainShape d = false.
Proof.
  intros H. destruct (domainShape d) eqn:E; [|reflexivity].
  apply domainShape_parts in E as (gs & t & [Hne Hgs] & _ & ->).
  destruct Hgs as [|g gs Hg _]; [contradiction|].
  apply isGroup_true in Hg as [Hg Hc]. destruct g as [|c g]; [contradiction|].
  rewrite joinDots_cons in H. cbn in H. apply isDot_eq in H; subst c. discriminate.
Qed.

(** Where the domain does not start with a dot, the code's test is the one
    the specification words. *)
Lemma domainOk_spec (d : jsstring) :
  startsWithDot d = false -> domainOk d = domainSpec d.
Proof.
  intros H. rewrite domainOk_leadingDot. unfold domainSpecLeadingDot, domainSpec.
  destruct d as [|c d']; [reflexivity|]. cbn in H. rewrite H. cbn [andb].
  now rewrite orb_false_r.
Qed.

Lemma skipn_address (l d : jsstring) (c : char16) :
  skipn (S (List.length l)) (l ++ c :: d) = d.
Proof. induction l as [|x l IH]; [reflexivity | exact IH]. Qed.

(** ** The claim about [validateEmail] *)

(** C6. [validateEmail] is called in one place, line 65, on the cleaned
    string.  For every such candidate with an [@], [domainOk] is true
    exactly when the text after the first [@] is one or more groups of
    [[a-z0-9-]] (any case) separated by single dots, then a final dot and a
    top-level label of two or more letters, and has no two dots in a row. *)
Theorem C6_domainOk_on_candidates (out0 : jsstring) (k : nat) :
  indexOfAt (cleanup out0) = Some k ->
  domainOk (skipn (S k) (cleanup out0)) = domainSpec (skipn (S k) (cleanup out0)).
Proof.
  intros Hk. destruct (cleanup_parts out0) as (_ & _ & Hparts).
  assert (Hat : includesAt (cleanup out0) = true).
  { destruct (includesAt (cleanup out0)) eqn:E; [reflexivity|].
    apply indexOfAt_None in E. congruence. }
  destruct (Hparts Hat) as (l & d & Heq & Hl & _ & _ & Hed).
  rewrite Heq in *. rewrite (indexOfAt_app l d Hl) in Hk. injection Hk as <-.
  rewrite skipn_address. apply domainOk_spec.
  unfold dotAtEdge in Hed. now apply orb_false_iff in Hed.
Qed.

Lemma C6_domainOk_on_candidates_witness :
  indexOfAt (cleanup (lit "raul.@.gmail..com")) = Some 4%nat
  /\ domainOk (lit "gmail.com") = domainSpec (lit "gmail.com").
Proof.
  split; [reflexivity|].
  exact (C6_domainOk_on_candidates (lit "raul.@.gmail..com") 4 eq_refl).
Defined.

Section CleanedEmail.

Variable unicodeLower : jsstring -> jsstring.
Variable unicodeNFD : jsstring -> jsstring.

Local Abbreviation normalized := (normalizeString unicodeLower unicodeNFD).

(** X4. The email of a result has no two dots in a row, in the local part
    no more than in the domain. *)
Theorem X4_email_no_dotdot (s : jsstring) :
  includesDotDot (email (normalized s)) = false.
Proof. unfold normalizeString. cbn [email]. apply cleanup_parts. Qed.

(** X5. Neither the email nor its [local] nor its [domain] begins or ends
    with a dot: no dot stands at an end of the email or next to the [@]. *)
Theorem X5_no_dot_at_edges (s : jsstring) :
  let r := normalized s in
  dotAtEdge (email r) = false
  /\ dotAtEdge (local r) = false
  /\ dotAtEdge (domain r) = false.
Proof.
  cbv zeta. unfold normalizeString. cbn [email local domain].
  set (e := cleanup _).
  destruct (cleanup_parts (rewriteTokens (rawTokens unicodeLower unicodeNFD s) [] false))
    as (_ & He & Hparts). fold e in He, Hparts.
  split; [exact He|].
  destruct (includesAt e) eqn:Eat.
  - destruct (Hparts eq_refl) as (l & d & Heq & Hl & _ & Hel & Hed).
    rewrite Heq. destruct (validateEmail_parts l d Hl) as [-> ->]. now split.
  - unfold validateEmail. rewrite (proj2 (indexOfAt_None e) Eat). now split.
Qed.

(** X7. A result is valid exactly when its email has an [@], its [local] is
    one or more code units of [[a-z0-9._+-]] and its [domain] is as the
    specification words it: non-empty groups of [[a-z0-9-]] separated by
    single dots, a final dot and two or more letters.  The leading dot that
    [validateEmail] alone lets through never reaches it from the clean-up. *)
Theorem X7_valid_result (s : jsstring) :
  let r := normalized s in
  isValid r = includesAt (email r) && localPattern (local r) && domainSpec (domain r).
Proof.
  cbv zeta. unfold normalizeString. cbn [email local domain isValid].
  set (e := cleanup _).
  destruct (cleanup_parts (rewriteTokens (rawTokens unicodeLower unicodeNFD s) [] false))
    as (_ & _ & Hparts). fold e in Hparts.
  destruct (includesAt e) eqn:Eat.
  - destruct (Hparts eq_refl) as (l & d & Heq & Hl & _ & _ & Hed).
    rewrite Heq. destruct (validateEmail_parts l d Hl) as [Hvl Hvd].
    rewrite Hvl, Hvd. unfold validateEmail. rewrite (indexOfAt_app l d Hl).
    cbn [v_isValid]. fold (v_local (validateEmail (l ++ c_at :: d))).
    assert (Hfl : firstn (List.length l) (l ++ c_at :: d) = l).
    { rewrite <- Hvl at 3. unfold validateEmail.
      now rewrite (indexOfAt_app l d Hl). }
    assert (Hsd : skipn (S (List.length l)) (l ++ c_at :: d) = d).
    { rewrite <- Hvd at 2. unfold validateEmail.
      now rewrite (indexOfAt_app l d Hl). }
    rewrite Hfl, Hsd, localOk_pattern, domainOk_spec; [reflexivity|].
    unfold dotAtEdge in Hed. now apply orb_false_iff in Hed.
  - unfold validateEmail. rewrite (proj2 (indexOfAt_None e) Eat). reflexivity.
Qed.

End CleanedEmail.

(** X6. The second collapse of dots, on the domain (line 59), never changes
    it: after the replacements of line 53 the piece after the [@] has no
    run of dots left. *)
Theorem X6_second_collapse_idle (out0 : jsstring) :
  let out := dropDotAfterAt (dropDotBeforeAt (collapseDots out0)) in
  let cleanDomain := stripDots (orEmpty (nth_error (splitAt2 out) 1)) in
  collapseDots cleanDomain = cleanDomain.
Proof.
  cbv zeta. apply collapseDots_id, stripDots_no_dotdot, piece_no_dotdot.
Qed.

(** ** What the input may vary in *)

Lemma dropWhile_map (p : char16 -> bool) (f : char16 -> char16) (s : jsstring) :
  (forall c, p (f c) = p c) -> dropWhile p (map f s) = map f (dropWhile p s).
Proof.
  intros Hp. induction s as [|c r IH]; [reflexivity|]. simpl.
  rewrite Hp. now destruct (p c).
Qed.

Lemma isSpace_asciiLower (c : char16) : isSpace (asciiLower c) = isSpace c.
Proof.
  unfold asciiLower, isUpper, inRange. destruct (65 <=? c) eqn:E1; [|reflexivity].
  destruct (c <=? 90) eqn:E2; [|reflexivity]. cbn [andb].
  apply N.leb_le in E1, E2. unfold isSpace, inRange.
  repeat match goal with
         | |- context [?a <=? ?b] =>
             destruct (N.leb_spec a b); try lia
         | |- context [?a =? ?b] =>
             destruct (N.eqb_spec a b); try lia
         end; reflexivity.
Qed.

Lemma trim_map_lower (s : jsstring) : trim (map asciiLower s) = map asciiLower (trim s).
Proof.
  unfold trim. rewrite dropWhile_map by apply isSpace_asciiLower.
  rewrite <- map_rev, dropWhile_map by apply isSpace_asciiLower.
  now rewrite map_rev.
Qed.

Lemma trim_shrinks : shrinks trim.
Proof.
  intros s c Hc. unfold trim in Hc. apply in_rev in Hc.
  apply dropWhile_shrinks in Hc. apply in_rev in Hc.
  now apply dropWhile_shrinks in Hc.
Qed.

Lemma asciiLower_ascii (c : char16) : isAscii c = true -> isAscii (asciiLower c) = true.
Proof.
  unfold isAscii, asciiLower, isUpper, inRange. intros H. apply N.ltb_lt in H.
  destruct (65 <=? c) eqn:E1; [|now apply N.ltb_lt].
  destruct (c <=? 90) eqn:E2; cbn [andb]; apply N.ltb_lt; [|exact H].
  apply N.leb_le in E2. lia.
Qed.

Lemma asciiLower_idem (c : char16) : asciiLower (asciiLower c) = asciiLower c.
Proof.
  unfold asciiLower. destruct (isUpper c) eqn:E; [|now rewrite E].
  assert (H : isUpper (c + 32) = false).
  { unfold isUpper, inRange in *. apply andb_true_iff in E as [E1 E2].
    apply N.leb_le in E1, E2. apply andb_false_iff; right. apply N.leb_gt. lia. }
  now rewrite H.
Qed.

Lemma dropWhile_app_all (p : char16 -> bool) (w s : jsstring) :
  forallb p w = true -> dropWhile p (w ++ s) = dropWhile p s.
Proof.
  induction w as [|c w IH]; [reflexivity|]. simpl. intros H.
  apply andb_true_iff in H as [-> H]. now apply IH.
Qed.

Lemma dropWhile_app_tail (p : char16 -> bool) (s w : jsstring) :
  forallb p w = true ->
  dropWhile p (s ++ w) = match dropWhile p s with
                         | [] => []
                         | _ :: _ => dropWhile p s ++ w
                         end.
Proof.
  intros Hw. induction s as [|c r IH]; simpl.
  - now apply dropWhile_all.
  - destruct (p c); [exact IH | reflexivity].
Qed.

Lemma trim_padded (w1 s w2 : jsstring) :
  forallb isSpace w1 = true -> forallb isSpace w2 = true ->
  trim (w1 ++ s ++ w2) = trim s.
Proof.
  intros H1 H2. unfold trim.
  rewrite (dropWhile_app_all _ _ _ H1), (dropWhile_app_tail _ _ _ H2).
  destruct (dropWhile isSpace s) as [|c r]; [reflexivity|].
  rewrite rev_app_distr, dropWhile_app_all; [reflexivity|].
  rewrite forallb_forall in *. intros x Hx. now apply H2, in_rev.
Qed.

Section InputVariation.

Variable unicodeLower : jsstring -> jsstring.
Variable unicodeNFD : jsstring -> jsstring.

Local Abbreviation normalized := (normalizeString unicodeLower unicodeNFD).
Local Abbreviation tokens := (rawTokens unicodeLower unicodeNFD).

Lemma outcome_of_tokens (s s' : jsstring) :
  tokens s = tokens s' -> outcome (normalized s) = outcome (normalized s').
Proof. intros H. unfold outcome, normalizeString. cbn. now rewrite H. Qed.

(** X8. On an input of ASCII code units the case of the letters does not
    matter: the input and the same input in lower case give the same email,
    validity, confidence, local part and domain. *)
Theorem X8_ascii_case_irrelevant (s : jsstring) :
  forallb isAscii s = true ->
  outcome (normalized (map asciiLower s)) = outcome (normalized s).
Proof.
  intros Hs. apply outcome_of_tokens. unfold rawTokens.
  rewrite trim_map_lower.
  assert (Ht : forallb isAscii (trim s) = true).
  { rewrite forallb_forall in *. intros c Hc. now apply Hs, trim_shrinks. }
  assert (Hm : forallb isAscii (map asciiLower (trim s)) = true).
  { rewrite forallb_forall in *. intros c Hc.
    apply in_map_iff in Hc as (x & <- & Hx). now apply asciiLower_ascii, Ht. }
  unfold toLowerCase. rewrite Ht, Hm, map_map.
  now rewrite (map_ext _ _ asciiLower_idem).
Qed.

Local Abbreviation normalize := (formatEmailText unicodeLower unicodeNFD).

(** X9. White space before and after a non-empty dictation does not
    matter: [formatEmailText] normalises both the padded input and the
    input itself, to the same email, validity, confidence, local part and
    domain.  (The empty string is another matter: alone it is refused by
    the guard, padded it is not.) *)
Theorem X9_padding_irrelevant (w1 s w2 : jsstring) :
  s <> [] -> forallb isSpace w1 = true -> forallb isSpace w2 = true ->
  normalize (InString (w1 ++ s ++ w2)) = Normalized (normalized (w1 ++ s ++ w2))
  /\ normalize (InString s) = Normalized (normalized s)
  /\ outcome (normalized (w1 ++ s ++ w2)) = outcome (normalized s).
Proof.
  intros Hs H1 H2. split; [|split].
  - destruct (w1 ++ s ++ w2) as [|c r] eqn:E; [|reflexivity].
    apply app_eq_nil in E as [_ E]. apply app_eq_nil in E as [E _]. contradiction.
  - destruct s; [contradiction | reflexivity].
  - apply outcome_of_tokens. unfold rawTokens. now rewrite trim_padded.
Qed.

End InputVariation.

Lemma X8_ascii_case_irrelevant_witness :
  forallb isAscii (lit "Raul DOT Smith AT Gmail dot COM") = true
  /\ outcome (normalizeString (fun s => s) (fun s => s)
                (map asciiLower (lit "Raul DOT Smith AT Gmail dot COM")))
     = outcome (normalizeString (fun s => s) (fun s => s)
                  (lit "Raul DOT Smith AT Gmail dot COM")).
Proof.
  split; [reflexivity|]. apply X8_ascii_case_irrelevant. reflexivity.
Defined.

Lemma X9_padding_irrelevant_witness :
  let padded := lit "  " ++ lit "juan arroba gmail punto com" ++ lit " " in
  let plain := lit "juan arroba gmail punto com" in
  formatEmailText (fun s => s) (fun s => s) (InString padded)
  = Normalized (normalizeString (fun s => s) (fun s => s) padded)
  /\ formatEmailText (fun s => s) (fun s => s) (InString plain)
     = Normalized (normalizeString (fun s => s) (fun s => s) plain)
  /\ outcome (normalizeString (fun s => s) (fun s => s) padded)
     = outcome (normalizeString (fun s => s) (fun s => s) plain).
Proof.
  apply X9_padding_irrelevant; [discriminate | reflexivity | reflexivity].
Defined.

(** ** The tokenizer (line 14) *)

Lemma isWord_true (t : jsstring) : isWord t = true <-> t <> [] /\ spaceFree t.
Proof. unfold isWord, spaceFree. rewrite andb_true_iff. now destruct t. Qed.

Lemma spaceFree_snoc (cur : jsstring) (c : char16) :
  spaceFree cur -> isSpace c = false -> spaceFree (cur ++ [c]).
Proof.
  unfold spaceFree. intros Hcur Hc. rewrite forallb_app, Hcur. cbn. now rewrite Hc.
Qed.

Lemma splitSpacesFrom_spaceFree (s cur : jsstring) (inRun : bool) :
  spaceFree cur -> Forall spaceFree (splitSpacesFrom cur inRun s).
Proof.
  revert cur inRun; induction s as [|c r IH]; intros cur inRun Hcur; simpl.
  - now constructor.
  - destruct (isSpace c) eqn:Ec.
    + destruct inRun; [|constructor; [exact Hcur|]]; now apply IH.
    + now apply IH, spaceFree_snoc.
Qed.

(** X10. Every token is a word: it is not empty and holds no white space,
    whatever the string that is split. *)
Theorem X10_tokens_are_words (s : jsstring) :
  forallb isWord (filter nonEmpty (splitSpaces s)) = true.
Proof.
  apply forallb_forall. intros t Ht. apply filter_In in Ht as [Hin Hne].
  apply isWord_true. split; [now destruct t|].
  pose proof (splitSpacesFrom_spaceFree s [] false eq_refl) as H.
  rewrite Forall_forall in H. now apply H.
Qed.

Lemma splitSpacesFrom_word (t rest cur : jsstring) (inRun : bool) :
  spaceFree t -> t <> [] ->
  splitSpacesFrom cur inRun (t ++ rest) = splitSpacesFrom (cur ++ t) false rest.
Proof.
  unfold spaceFree. revert cur inRun; induction t as [|c t IH]; intros cur inRun Hs Hne;
    [contradiction|].
  cbn [forallb] in Hs. apply andb_true_iff in Hs as [Hc Ht].
  apply negb_true_iff in Hc. cbn [app splitSpacesFrom]. rewrite Hc.
  destruct t as [|c' t'].
  - reflexivity.
  - rewrite IH by (auto; discriminate). now rewrite <- app_assoc.
Qed.

Lemma splitSpaces_join (ts : list jsstring) (cur : jsstring) :
  forallb isWord ts = true -> ts <> [] ->
  forall inRun,
    filter nonEmpty (splitSpacesFrom cur inRun (joinSpaces ts))
    = match ts with
      | [] => []
      | t :: r => (cur ++ t) :: r
      end.
Proof.
  revert cur; induction ts as [|t r IH]; intros cur Hw Hne inRun; [contradiction|].
  cbn [forallb] in Hw. apply andb_true_iff in Hw as [Ht Hr].
  apply isWord_true in Ht as [Htne Hts].
  assert (Hct : nonEmpty (cur ++ t) = true) by (destruct cur, t; easy).
  destruct r as [|t' r'].
  - cbn [joinSpaces]. rewrite <- (app_nil_r t) at 1.
    rewrite splitSpacesFrom_word by assumption. cbn. now rewrite Hct.
  - change (joinSpaces (t :: t' :: r')) with (t ++ 32 :: joinSpaces (t' :: r')).
    rewrite splitSpacesFrom_word by assumption.
    cbn [splitSpacesFrom]. change (isSpace 32) with true. cbv iota.
    cbn [filter]. rewrite Hct. f_equal.
    rewrite IH by (auto; discriminate). reflexivity.
Qed.

(** X11. Splitting a line of words, written with one space between two of
    them, gives the words back. *)
Theorem X11_split_of_join (ts : list jsstring) :
  forallb isWord ts = true ->
  filter nonEmpty (splitSpaces (joinSpaces ts)) = ts.
Proof.
  intros Hw. destruct ts as [|t r]; [reflexivity|].
  unfold splitSpaces. now rewrite splitSpaces_join.
Qed.

Lemma X11_split_of_join_witness :
  forallb isWord [lit "juan"; lit "arroba"; lit "gmail.com"] = true
  /\ filter nonEmpty (splitSpaces (joinSpaces [lit "juan"; lit "arroba"; lit "gmail.com"]))
     = [lit "juan"; lit "arroba"; lit "gmail.com"].
Proof.
  split; [reflexivity|]. apply X11_split_of_join. reflexivity.
Defined.

(** ** Filler words (line 31) *)

Lemma rewriteTokens_ignored (t : jsstring) (rest : list jsstring)
      (out : jsstring) (seenAt : bool) :
  IGNORE_has t = true ->
  rewriteTokens (t :: rest) out seenAt = rewriteTokens rest out seenAt.
Proof. intros H. cbn [rewriteTokens]. now rewrite H. Qed.

Lemma rewriteTokens_plain (t : jsstring) (rest : list jsstring)
      (out : jsstring) (seenAt : bool) :
  IGNORE_has t = false -> eqs t (lit "guion") = false ->
  rewriteTokens (t :: rest) out seenAt
  = rewriteTokens rest (fst (rewriteSingle t out seenAt))
                       (snd (rewriteSingle t out seenAt)).
Proof.
  intros Hi Hg. cbn [rewriteTokens]. rewrite Hi, Hg. cbn [andb].
  destruct (rewriteSingle t out seenAt) as [o b]. now destruct rest.
Qed.

Lemma rewriteTokens_guion (next : jsstring) (rest : list jsstring)
      (out : jsstring) (seenAt : bool) :
  rewriteTokens (lit "guion" :: next :: rest) out seenAt
  = if eqs next (lit "bajo") then rewriteTokens rest (out ++ [c_underscore]) seenAt
    else if eqs next (lit "medio") || eqs next (lit "alto")
    then rewriteTokens rest (out ++ [c_hyphen]) seenAt
    else rewriteTokens (next :: rest)
           (fst (rewriteSingle (lit "guion") out seenAt))
           (snd (rewriteSingle (lit "guion") out seenAt)).
Proof.
  change (rewriteTokens (lit "guion" :: next :: rest) out seenAt)
    with (if true && eqs next (lit "bajo")
          then rewriteTokens rest (out ++ [c_underscore]) seenAt
          else if true && (eqs next (lit "medio") || eqs next (lit "alto"))
          then rewriteTokens rest (out ++ [c_hyphen]) seenAt
          else let '(out', seenAt') := rewriteSingle (lit "guion") out seenAt in
               rewriteTokens (next :: rest) out' seenAt').
  cbn [andb]. now destruct (rewriteSingle (lit "guion") out seenAt).
Qed.

(** X12. Filler words can be left out of the tokens without changing what
    the loop writes, as long as none of them comes directly after a "guion"
    (there it would stand between the two words of a bigram). *)
Theorem X12_fillers_dropped (toks : list jsstring) :
  guionThenFiller toks = false ->
  forall (out : jsstring) (seenAt : bool),
    rewriteTokens (filter (fun t => negb (IGNORE_has t)) toks) out seenAt
    = rewriteTokens toks out seenAt.
Proof.
  induction toks as [|t|t next rest IH1 IH2] using list_ind2; intros Hg out seenAt.
  - reflexivity.
  - cbn [filter]. destruct (IGNORE_has t) eqn:Ei; cbn [negb]; [|reflexivity].
    now rewrite rewriteTokens_ignored.
  - change (guionThenFiller (t :: next :: rest))
      with ((eqs t (lit "guion") && IGNORE_has next) || guionThenFiller (next :: rest))
      in Hg.
    apply orb_false_iff in Hg as [Hgn Hg1].
    assert (Hg2 : guionThenFiller rest = false).
    { destruct rest as [|x r]; [reflexivity|].
      change (guionThenFiller (next :: x :: r))
        with ((eqs next (lit "guion") && IGNORE_has x) || guionThenFiller (x :: r))
        in Hg1.
      now apply orb_false_iff in Hg1. }
    cbn [filter]. fold (filter (fun t => negb (IGNORE_has t)) (next :: rest)).
    destruct (IGNORE_has t) eqn:Ei; cbn [negb].
    + rewrite rewriteTokens_ignored by exact Ei. now apply IH1.
    + destruct (eqs t (lit "guion")) eqn:Et.
      * apply eqs_eq in Et; subst t. cbn [andb] in Hgn.
        cbn [filter]. rewrite Hgn. cbn [negb].
        rewrite !rewriteTokens_guion.
        destruct (eqs next (lit "bajo")); [now apply IH2|].
        destruct (eqs next (lit "medio") || eqs next (lit "alto")); [now apply IH2|].
        specialize (IH1 Hg1). cbn [filter] in IH1. rewrite Hgn in IH1. apply IH1.
      * rewrite !rewriteTokens_plain by assumption. now apply IH1.
Qed.

Lemma X12_fillers_dropped_witness :
  rewriteTokens
    (filter (fun t => negb (IGNORE_has t))
       (map lit ["todo"; "junto"; "ana"; "guion"; "bajo"; "por"; "favor"; "lopez"]%string))
    [] false
  = rewriteTokens
      (map lit ["todo"; "junto"; "ana"; "guion"; "bajo"; "por"; "favor"; "lopez"]%string)
      [] false.
Proof.
  apply X12_fillers_dropped. reflexivity.
Defined.

(** ** Cleaning twice *)

Lemma dropDotBeforeAt_noAt (s : jsstring) : noAt s -> dropDotBeforeAt s = s.
Proof.
  induction s as [|x|x y r IH1 IH2] using list_ind2; intros H; try reflexivity.
  rewrite dropDotBeforeAt_eq.
  rewrite (H y) by (right; now left). rewrite andb_false_r.
  f_equal. apply IH1. intros c Hc. apply H. now right.
Qed.

Lemma dropDotAfterAt_noAt (s : jsstring) : noAt s -> dropDotAfterAt s = s.
Proof.
  induction s as [|x r IH]; intros H; [reflexivity|].
  cbn [dropDotAfterAt]. rewrite (H x) by now left.
  f_equal. apply IH. intros c Hc. apply H. now right.
Qed.

Lemma endsWithDot_cons (x y : char16) (r : jsstring) :
  endsWithDot (x :: y :: r) = endsWithDot (y :: r).
Proof. reflexivity. Qed.

Lemma dropDotBeforeAt_address (l d : jsstring) :
  noAt l -> noAt d -> endsWithDot l = false ->
  dropDotBeforeAt (l ++ c_at :: d) = l ++ c_at :: d.
Proof.
  intros Hl Hd. induction l as [|x l IH]; intros He.
  - cbn [app]. destruct d as [|y d']; [reflexivity|].
    rewrite dropDotBeforeAt_eq. cbn [isDot andb].
    change (isDot c_at) with false. cbn [andb].
    f_equal. now apply dropDotBeforeAt_noAt.
  - destruct l as [|y l'].
    + cbn [app]. rewrite dropDotBeforeAt_eq.
      unfold endsWithDot in He. cbn [last] in He. rewrite He. cbn [andb].
      f_equal. apply (IH ltac:(intros ? [])). reflexivity.
    + change ((x :: y :: l') ++ c_at :: d) with (x :: y :: (l' ++ c_at :: d)).
      rewrite dropDotBeforeAt_eq.
      rewrite (Hl y) by (right; now left). rewrite andb_false_r.
      f_equal. apply IH; [|now rewrite endsWithDot_cons in He].
      intros c Hc. apply Hl. now right.
Qed.

Lemma dropDotAfterAt_address (l d : jsstring) :
  noAt l -> noAt d -> startsWithDot d = false ->
  dropDotAfterAt (l ++ c_at :: d) = l ++ c_at :: d.
Proof.
  intros Hl Hd Hs. induction l as [|x l IH].
  - cbn [app dropDotAfterAt]. change (isAt c_at) with true. cbv iota.
    destruct d as [|y d']; [reflexivity|]. cbn in Hs. rewrite Hs.
    f_equal. now apply dropDotAfterAt_noAt.
  - cbn [app dropDotAfterAt]. rewrite (Hl x) by now left.
    f_equal. apply IH. intros c Hc. apply Hl. now right.
Qed.

Lemma splitAtFrom_noAt_one (s cur : jsstring) : noAt s -> splitAtFrom cur s = [cur ++ s].
Proof.
  revert cur; induction s as [|c r IH]; intros cur H; simpl.
  - now rewrite app_nil_r.
  - rewrite (H c) by now left. rewrite IH by (intros x Hx; apply H; now right).
    now rewrite <- app_assoc.
Qed.

Lemma splitAtFrom_address (l d cur : jsstring) :
  noAt l -> noAt d -> splitAtFrom cur (l ++ c_at :: d) = [cur ++ l; d].
Proof.
  intros Hl Hd. revert cur; induction l as [|c r IH]; intros cur.
  - cbn [app splitAtFrom]. change (isAt c_at) with true. cbv iota.
    now rewrite app_nil_r, splitAtFrom_noAt_one.
  - cbn [app splitAtFrom]. rewrite (Hl c) by now left.
    rewrite IH by (intros x Hx; apply Hl; now right).
    now rewrite <- app_assoc.
Qed.

Lemma dropWhile_head (s : jsstring) : startsWithDot s = false -> dropWhile isDot s = s.
Proof. destruct s as [|c r]; [reflexivity|]. cbn. now intros ->. Qed.

Lemma dropTrailingDots_id (s : jsstring) :
  endsWithDot s = false -> dropTrailingDots s = s.
Proof.
  induction s as [|x|x y r IH1 IH2] using list_ind2; intros H.
  - reflexivity.
  - unfold endsWithDot in H. cbn in *. now rewrite H.
  - rewrite endsWithDot_cons in H. specialize (IH1 H).
    cbn [dropTrailingDots] in *.
    destruct (forallb isDot (y :: r)) eqn:E; [discriminate|].
    cbn [forallb] in *. rewrite E, andb_false_r. now rewrite IH1.
Qed.

Lemma stripDots_id (s : jsstring) : dotAtEdge s = false -> stripDots s = s.
Proof.
  unfold dotAtEdge, stripDots. intros H. apply orb_false_iff in H as [H1 H2].
  rewrite dropWhile_head by exact H1. now apply dropTrailingDots_id.
Qed.

(** X13. The clean-up of lines 53-63 is idempotent: a cleaned string is
    left as it is by a second clean-up. *)
Theorem X13_cleanup_idempotent (out0 : jsstring) :
  cleanup (cleanup out0) = cleanup out0.
Proof.
  destruct (cleanup_parts out0) as (Hdd & Hedge & Hparts).
  set (e := cleanup out0) in *.
  unfold cleanup at 1. rewrite (collapseDots_id e Hdd).
  destruct (includesAt e) eqn:Eat.
  - destruct (Hparts eq_refl) as (l & d & Heq & Hl & Hd & Hel & Hed).
    rewrite Heq in *.
    assert (Hle : endsWithDot l = false)
      by (unfold dotAtEdge in Hel; now apply orb_false_iff in Hel).
    assert (Hds : startsWithDot d = false)
      by (unfold dotAtEdge in Hed; now apply orb_false_iff in Hed).
    rewrite (dropDotBeforeAt_address l d Hl Hd Hle).
    rewrite (dropDotAfterAt_address l d Hl Hd Hds).
    rewrite Eat. unfold splitAt2. rewrite (splitAtFrom_address l d [] Hl Hd).
    cbn [app firstn nth_error orEmpty].
    rewrite (stripDots_id l Hel), (stripDots_id d Hed).
    rewrite collapseDots_id; [reflexivity|].
    apply includesDotDot_app_r in Hdd. now apply includesDotDot_tail in Hdd.
  - assert (Hno : noAt e) by now apply includesAt_false.
    rewrite (dropDotBeforeAt_noAt e Hno), (dropDotAfterAt_noAt e Hno), Eat.
    now apply stripDots_id.
Qed.

(** ** The handler *)

Section HandlerProperties.

Variable unicodeLower : jsstring -> jsstring.
Variable unicodeNFD : jsstring -> jsstring.
Variable parseText : jsstring -> jsinput + jsstring.

Local Abbreviation handle := (handler unicodeLower unicodeNFD parseText).
Local Abbreviation normalized := (normalizeString unicodeLower unicodeNFD).

Lemma orEmptyString_falsy (v : jsinput) :
  falsy (orEmptyString v) = falsy v.
Proof. unfold orEmptyString. destruct (falsy v) eqn:E; [reflexivity | exact E]. Qed.

Lemma eqs_neq (a b : jsstring) : eqs a b = false -> a <> b.
Proof. intros H E. apply eqs_eq in E. congruence. Qed.

Ltac status_goal :=
  cbn [r_headers r_status r_body];
  repeat split; intros;
  try discriminate; try contradiction; try tauto; try (cbn; tauto).

(** X14. Whatever the request, the answer carries the three CORS headers and
    nothing else; its status is 204 exactly for OPTIONS and 405 exactly for
    a method other than OPTIONS, GET and POST, and else 200, 400 or 500; it
    has a body except for OPTIONS. *)
Theorem X14_status_and_headers (req : Request) :
  let r := handle req in
  let m := method req in
  r_headers r = allowCORS []
  /\ (r_status r = 204%nat <-> m = lit "OPTIONS")
  /\ (r_status r = 405%nat <->
        m <> lit "OPTIONS" /\ m <> lit "GET" /\ m <> lit "POST")
  /\ In (r_status r) [200; 204; 400; 405; 500]%nat
  /\ (r_body r = BodyNone <-> m = lit "OPTIONS").
Proof.
  cbv zeta. unfold handler, readText.
  destruct (eqs (method req) (lit "OPTIONS")) eqn:Eo;
    [apply eqs_eq in Eo | apply eqs_neq in Eo];
    [now status_goal|].
  destruct (eqs (method req) (lit "GET")) eqn:Eg;
    [apply eqs_eq in Eg | apply eqs_neq in Eg].
  { destruct (falsy (orEmptyString _)); now status_goal. }
  destruct (eqs (method req) (lit "POST")) eqn:Ep;
    [apply eqs_eq in Ep | apply eqs_neq in Ep]; [|now status_goal].
  destruct (body req) as [v|].
  { destruct (falsy (orEmptyString v)); now status_goal. }
  destruct (stream req) as [raw|e]; [|now status_goal].
  destruct (parseText _) as [v|e]; [|now status_goal].
  destruct (falsy (orEmptyString v)); now status_goal.
Qed.

(** X15. Over HTTP a text that is a string is never answered with the
    "Empty input" object: an empty one is refused with 400 before
    [formatEmailText] is called and any other one is normalised.  The
    "Empty input" object is sent, with status 200, exactly for a text that
    is truthy and not a string (an array, a number, an object). *)
Theorem X15_empty_input_over_http (req : Request) (v : jsinput) :
  method req <> lit "OPTIONS" ->
  readText parseText req = Text v ->
  match v with
  | InString [] => r_status (handle req) = 400%nat
  | InString s =>
      r_status (handle req) = 200%nat
      /\ r_body (handle req) = BodyResult (Normalized (normalized s))
  | InOther true =>
      r_status (handle req) = 200%nat
      /\ r_body (handle req) = BodyResult (Failed emptyInput)
  | _ => r_status (handle req) = 400%nat
  end.
Proof.
  intros Ho Hv. unfold handler.
  destruct (eqs (method req) (lit "OPTIONS")) eqn:Eo;
    [apply eqs_eq in Eo; contradiction|].
  rewrite Hv. destruct v as [| [|] | [|c s]]; cbn; auto.
Qed.

End HandlerProperties.

Lemma X15_empty_input_over_http_witness :
  let req := mkRequest (lit "GET") (Some (InOther true)) None (inl []) in
  r_status (handler (fun s => s) (fun s => s) (fun _ => inl InAbsent) req) = 200%nat
  /\ r_body (handler (fun s => s) (fun s => s) (fun _ => inl InAbsent) req)
     = BodyResult (Failed emptyInput).
Proof.
  refine (X15_empty_input_over_http (fun s => s) (fun s => s) (fun _ => inl InAbsent)
            (mkRequest (lit "GET") (Some (InOther true)) None (inl []))
            (InOther true) _ eq_refl).
  discriminate.
Defined.

(** * The other variants of the file *)

(** ** The loop, whatever the vocabulary *)

Lemma inherited_text (t : jsstring) (v : jsval) :
  assoc t ObjectPrototype = Some v ->
  strictEqAt v = false /\ includesAt (toStr v) = false /\ oneLine (toStr v) = true.
Proof.
  intros Hv. apply assoc_In in Hv. vm_compute in Hv.
  repeat (destruct Hv as [<-|Hv]; [repeat split|]). contradiction.
Qed.

Section LoopInvariant.

Variable ignore : list jsstring.
Variable table : list (jsstring * jsstring).
Hypothesis table_ok : tableValuesOk table.

Lemma tableGet_text (t : jsstring) :
  strictEqAt (tableGet table t) = false ->
  includesAt (toStr (tableGet table t)) = false.
Proof.
  unfold tableGet. destruct (assoc t table) as [s|] eqn:Es.
  - apply assoc_In_pair in Es. unfold tableValuesOk in table_ok.
    rewrite Forall_forall in table_ok. destruct (table_ok _ Es) as [H|H]; simpl in H.
    + cbn [strictEqAt]. congruence.
    + intros _. exact H.
  - destruct (assoc t ObjectPrototype) as [v|] eqn:Ev; [|reflexivity].
    intros _. now apply (inherited_text t v).
Qed.

Lemma stepWith_at (t out : jsstring) (seenAt : bool) :
  seenAt = includesAt out ->
  snd (stepWith table t out seenAt) = includesAt (fst (stepWith table t out seenAt)).
Proof.
  intros Hinv. unfold stepWith.
  assert (Hx : forall x, includesAt x = false -> seenAt = includesAt (out ++ x)).
  { intros x Hx. now rewrite includesAt_app, Hx, orb_false_r. }
  destruct (truthy (tableGet table t)).
  - destruct (strictEqAt (tableGet table t)) eqn:Es.
    + destruct seenAt; cbn [fst snd]; [exact Hinv|].
      now rewrite includesAt_app, orb_true_r.
    + cbn [fst snd]. now apply Hx, tableGet_text.
  - destruct (eqs t [c_dot] || eqs t [c_underscore] || eqs t [c_hyphen]
              || eqs t [c_plus]) eqn:E; cbn [fst snd]; apply Hx.
    + repeat (apply orb_true_iff in E as [E|E]);
        apply eqs_eq in E; subst t; reflexivity.
    + apply includesAt_false. intros c Hc. apply filter_In in Hc as [_ Hc].
      destruct (isAt c) eqn:Ec; [|reflexivity].
      apply isAt_eq in Ec; subst c. discriminate.
Qed.

(** After the loop [seenAt] tells whether [out] has an [@]. *)
Lemma loopWith_at (toks : list jsstring) :
  forall (out : jsstring) (seenAt : bool),
    seenAt = includesAt out ->
    snd (loopWith ignore table toks out seenAt)
    = includesAt (fst (loopWith ignore table toks out seenAt)).
Proof.
  assert (Hsym : forall out c, isAt c = false ->
                   includesAt (out ++ [c]) = includesAt out).
  { intros out c Hc. rewrite includesAt_app. cbn. now rewrite Hc, !orb_false_r. }
  induction toks as [|t|t next rest IH1 IH2] using list_ind2; intros out seenAt Hinv.
  - exact Hinv.
  - cbn [loopWith]. destruct (existsb (eqs t) ignore); [exact Hinv|].
    pose proof (stepWith_at t out seenAt Hinv) as H.
    destruct (stepWith table t out seenAt) as [o b]. exact H.
  - cbn [loopWith]. fold (loopWith ignore table (next :: rest)).
    destruct (existsb (eqs t) ignore); [now apply IH1|].
    destruct (eqs t (lit "guion") && eqs next (lit "bajo"));
      [apply IH2; now rewrite Hsym|].
    destruct (eqs t (lit "guion") && _); [apply IH2; now rewrite Hsym|].
    pose proof (stepWith_at t out seenAt Hinv) as H.
    destruct (stepWith table t out seenAt) as [o b]. now apply IH1.
Qed.

End LoopInvariant.

Lemma MAP_SINGLE_v2_ok : tableValuesOk MAP_SINGLE_v2.
Proof.
  unfold tableValuesOk, MAP_SINGLE_v2. cbn [map].
  repeat (apply Forall_cons; [first [now left | now right]|]). apply Forall_nil.
Qed.

Lemma basicCleanup_includesAt (out : jsstring) :
  includesAt (basicCleanup out) = includesAt out.
Proof.
  unfold basicCleanup. destruct (includesAt out) eqn:E.
  - now apply dropDotAfterAt_keepsAt, dropDotBeforeAt_keepsAt,
      (collapseDotsFrom_keepsAt false).
  - apply includesAt_false. apply includesAt_false in E.
    do 3 (apply shrinks_noAt; auto with shrink).
Qed.

Lemma finalAdjust_shape (out : jsstring) :
  (exists l d, finalAdjust out = l ++ c_at :: d /\ noAt l /\ noAt d)
  \/ noAt (finalAdjust out).
Proof.
  unfold finalAdjust. destruct (includesAt out) eqn:E.
  - left.
    assert (Hp : Forall noAt (splitAtFrom [] out))
      by (apply splitAtFrom_noAt, noAt_nil).
    eexists _, _; split; [reflexivity|]. unfold splitAt2. split.
    + apply shrinks_noAt; auto with shrink. apply piece_has; auto using noAt_nil.
    + do 2 (apply shrinks_noAt; auto with shrink).
      apply piece_has; auto using noAt_nil.
  - right. apply shrinks_noAt; auto with shrink. now apply includesAt_false.
Qed.

Section SecondVariant.

Variable unicodeLower : jsstring -> jsstring.
Variable unicodeNFD : jsstring -> jsstring.

Local Abbreviation tokens := (rawTokens unicodeLower unicodeNFD).
Local Abbreviation normalized2 := (normalizeString_v2 unicodeLower unicodeNFD).

(** X16. In the second variant the first attempt (lines 190-197, for an
    [@] that was dictated but lost) never runs: after the loop and the
    replacements, [seenAt] is true exactly when the text has its [@], so
    inside the test of line 188 it is false, and lines 188-207 come to one
    attempt on a text without [@]. *)
Theorem X16_first_attempt_never_runs (s : jsstring) :
  let loop := loopWith IGNORE_v2 MAP_SINGLE_v2 (tokens s) [] false in
  let out := basicCleanup (fst loop) in
  let seenAt := snd loop in
  negb (includesAt out) && seenAt = false
  /\ ensureAt out seenAt = if includesAt out then out else inferAt out.
Proof.
  cbv zeta.
  pose proof (loopWith_at IGNORE_v2 MAP_SINGLE_v2 MAP_SINGLE_v2_ok (tokens s)
                [] false eq_refl) as H.
  rewrite <- basicCleanup_includesAt in H. rewrite H.
  set (out := basicCleanup _). unfold ensureAt.
  destruct (includesAt out) eqn:E; cbn [negb andb]; split; try reflexivity.
  rewrite E. reflexivity.
Qed.

(** X17. The email of the second variant has at most one [@] as well,
    whatever the fallback did. *)
Theorem X17_v2_at_most_one_at (s : jsstring) :
  (countAt (email (normalized2 s)) <= 1)%nat.
Proof.
  unfold normalizeString_v2.
  destruct (loopWith IGNORE_v2 MAP_SINGLE_v2 (tokens s) [] false) as [out seenAt].
  cbn [email].
  destruct (finalAdjust_shape (ensureAt (basicCleanup out) seenAt))
    as [(l & d & -> & Hl & Hd)|H].
  - rewrite countAt_app. change (c_at :: d) with ([c_at] ++ d).
    rewrite countAt_app, (countAt_noAt l Hl), (countAt_noAt d Hd). simpl. lia.
  - rewrite (countAt_noAt _ H). lia.
Qed.

End SecondVariant.

(** X18. The fallback leaves alone a text that as a whole is a label, a dot
    and one or two top-level labels: the lazy first group matches nothing
    there, the local part is empty and the test of line 204 fails.  So
    "ventas empresa punto com", the example in the comment of line 198,
    stays "ventasempresa.com". *)
Theorem X18_fallback_idle_on_domain (out : jsstring) :
  domainTail out = true -> inferAt out = out.
Proof.
  intros H. unfold inferAt, matchTail.
  cbn [seq firstSome]. unfold lazyEnd at 1.
  rewrite Nat.sub_0_r. cbn [seq find]. unfold slice at 1.
  cbn [Nat.sub firstn forallb skipn andb]. rewrite H. reflexivity.
Qed.

Lemma X18_fallback_idle_on_domain_witness :
  domainTail (lit "ventasempresa.com") = true
  /\ inferAt (lit "ventasempresa.com") = lit "ventasempresa.com".
Proof.
  split; [reflexivity|]. apply X18_fallback_idle_on_domain. reflexivity.
Defined.

(** ** The fallback of the second variant (lines 187-207) *)

Lemma firstSome_Some {A B : Type} (f : A -> option B) (l : list A) (y : B) :
  firstSome f l = Some y -> exists x, In x l /\ f x = Some y.
Proof.
  induction l as [|x r IH]; simpl; [discriminate|].
  destruct (f x) as [z|] eqn:E.
  - intros [= <-]. exists x. auto.
  - intros H. destruct (IH H) as (x' & Hin & Hx). exists x'. auto.
Qed.

Lemma lazyEnd_Some (out : jsstring) (i p : nat) :
  lazyEnd out i = Some p ->
  (i <= p <= List.length out)%nat
  /\ oneLine (slice out i p) = true /\ domainTail (skipn p out) = true.
Proof.
  unfold lazyEnd. intros H. apply find_some in H as [Hin H].
  apply in_seq in Hin. apply andb_true_iff in H as [H1 H2].
  repeat split; auto; lia.
Qed.

Lemma oneLine_firstn (s : jsstring) (n : nat) :
  oneLine s = true -> oneLine (firstn n s) = true.
Proof.
  unfold oneLine. rewrite !forallb_forall. intros H c Hc.
  apply H. rewrite <- (firstn_skipn n s). apply in_or_app. now left.
Qed.

(** On one line the match starts at index 0: the two groups are the text. *)
Lemma matchTail_oneLine (out m1 m2 : jsstring) :
  oneLine out = true -> matchTail out = Some (m1, m2) ->
  out = m1 ++ m2 /\ domainTail m2 = true.
Proof.
  intros Hline. unfold matchTail. cbn [seq firstSome].
  destruct (lazyEnd out 0) as [p|] eqn:E0.
  - intros [= <- <-]. apply lazyEnd_Some in E0 as (_ & _ & Hd).
    unfold slice. rewrite Nat.sub_0_r. cbn [skipn].
    split; [symmetry; apply firstn_skipn | exact Hd].
  - intros H. apply firstSome_Some in H as (i & _ & Hi).
    destruct (lazyEnd out i) as [p|] eqn:Ei; [|discriminate].
    apply lazyEnd_Some in Ei as (Hip & _ & Hd).
    unfold lazyEnd in E0. rewrite Nat.sub_0_r in E0.
    pose proof (find_none _ _ E0 p) as Hnone. cbv beta in Hnone.
    rewrite Hd, andb_true_r in Hnone.
    unfold slice in Hnone. rewrite Nat.sub_0_r in Hnone. cbn [skipn] in Hnone.
    rewrite oneLine_firstn in Hnone by exact Hline.
    assert (In p (seq 0 (S (List.length out)))) by (apply in_seq; lia).
    specialize (Hnone H). discriminate.
Qed.

Lemma dropTrailingSyms_split (s : jsstring) :
  exists t, s = dropTrailingSyms s ++ t /\ forallb isSym t = true.
Proof.
  induction s as [|c r (t & Hr & Ht)].
  - now exists [].
  - cbn [dropTrailingSyms]. destruct (forallb isSym (c :: r)) eqn:E.
    + now exists (c :: r).
    + exists t. split; [|exact Ht]. cbn [app]. now rewrite <- Hr.
Qed.

Lemma dropWhile_split (p : char16 -> bool) (s : jsstring) :
  exists t, s = t ++ dropWhile p s /\ forallb p t = true.
Proof.
  induction s as [|c r (t & Hr & Ht)].
  - now exists [].
  - simpl. destruct (p c) eqn:E.
    + exists (c :: t). cbn. rewrite E, Ht. now rewrite <- Hr.
    + now exists [].
Qed.

(** What an attempt does to a text on one line. *)
Lemma inferAt_oneLine (out : jsstring) :
  oneLine out = true ->
  inferAt out = out
  \/ exists l syms d,
       out = l ++ syms ++ d /\ forallb isSym syms = true
       /\ l <> [] /\ d <> [] /\ inferAt out = l ++ c_at :: d.
Proof.
  intros Hline. unfold inferAt.
  destruct (matchTail out) as [[m1 m2]|] eqn:Em; [|now left].
  destruct (matchTail_oneLine out m1 m2 Hline Em) as [Hout _].
  destruct (dropTrailingSyms_split m1) as (t1 & H1 & Ht1).
  destruct (dropWhile_split isSym m2) as (t2 & H2 & Ht2).
  cbv zeta.
  destruct (dropTrailingSyms m1) as [|a l'] eqn:El; [now left|].
  destruct (dropWhile isSym m2) as [|b d'] eqn:Ed; [now left|].
  right. exists (a :: l'), (t1 ++ t2), (b :: d'). cbn [nonEmpty andb].
  repeat split; try discriminate.
  - rewrite Hout, H1, H2. now rewrite <- !app_assoc.
  - now rewrite forallb_app, Ht1, Ht2.
Qed.

Lemma emailChar_oneLine (t : jsstring) : oneLine (filter isEmailChar t) = true.
Proof.
  unfold oneLine. apply forallb_forall. intros c Hc. apply filter_In in Hc as [_ Hc].
  destruct (isLineTerminator c) eqn:E; [|reflexivity].
  unfold isLineTerminator in E.
  repeat (apply orb_true_iff in E as [E|E]); apply N.eqb_eq in E; subst c; discriminate.
Qed.

Lemma oneLine_app (a b : jsstring) : oneLine (a ++ b) = oneLine a && oneLine b.
Proof. apply forallb_app. Qed.

Section LoopOneLine.

Variable ignore : list jsstring.
Variable table : list (jsstring * jsstring).
Hypothesis table_lines : tableOneLine table.

Lemma tableGet_oneLine (t : jsstring) : oneLine (toStr (tableGet table t)) = true.
Proof.
  unfold tableGet. destruct (assoc t table) as [s|] eqn:Es.
  - apply assoc_In_pair in Es. unfold tableOneLine in table_lines.
    rewrite Forall_forall in table_lines. exact (table_lines _ Es).
  - destruct (assoc t ObjectPrototype) as [v|] eqn:Ev; [|reflexivity].
    now apply (inherited_text t v).
Qed.

Lemma stepWith_oneLine (t out : jsstring) (seenAt : bool) :
  oneLine out = true -> oneLine (fst (stepWith table t out seenAt)) = true.
Proof.
  intros Hout. unfold stepWith.
  destruct (truthy (tableGet table t)).
  - destruct (strictEqAt (tableGet table t)); [destruct seenAt|]; cbn [fst];
      rewrite ?oneLine_app, ?Hout, ?tableGet_oneLine; reflexivity.
  - destruct (eqs t [c_dot] || eqs t [c_underscore] || eqs t [c_hyphen]
              || eqs t [c_plus]) eqn:E; cbn [fst]; rewrite oneLine_app, Hout.
    + repeat (apply orb_true_iff in E as [E|E]);
        apply eqs_eq in E; subst t; reflexivity.
    + apply emailChar_oneLine.
Qed.

Lemma loopWith_oneLine (toks : list jsstring) :
  forall (out : jsstring) (seenAt : bool),
    oneLine out = true -> oneLine (fst (loopWith ignore table toks out seenAt)) = true.
Proof.
  induction toks as [|t|t next rest IH1 IH2] using list_ind2; intros out seenAt Hout.
  - exact Hout.
  - cbn [loopWith]. destruct (existsb (eqs t) ignore); [exact Hout|].
    pose proof (stepWith_oneLine t out seenAt Hout) as H.
    destruct (stepWith table t out seenAt) as [o b]. exact H.
  - cbn [loopWith]. fold (loopWith ignore table (next :: rest)).
    destruct (existsb (eqs t) ignore); [now apply IH1|].
    destruct (eqs t (lit "guion") && eqs next (lit "bajo"));
      [apply IH2; now rewrite oneLine_app, Hout|].
    destruct (eqs t (lit "guion") && _); [apply IH2; now rewrite oneLine_app, Hout|].
    pose proof (stepWith_oneLine t out seenAt Hout) as H.
    destruct (stepWith table t out seenAt) as [o b]. now apply IH1.
Qed.

End LoopOneLine.

Lemma MAP_SINGLE_v2_lines : tableOneLine MAP_SINGLE_v2.
Proof.
  unfold tableOneLine, MAP_SINGLE_v2. cbn [map].
  repeat (apply Forall_cons; [reflexivity|]). apply Forall_nil.
Qed.

Section Fallback.

Variable unicodeLower : jsstring -> jsstring.
Variable unicodeNFD : jsstring -> jsstring.

Local Abbreviation tokens := (rawTokens unicodeLower unicodeNFD).

(** X19. On the text it gets in the second variant, an attempt either
    changes nothing, or it takes out one run, possibly empty, of the
    characters [.], [-], [_] and [+] and puts an [@] there, with text left
    on both sides; nothing else is moved, added or lost. *)
Theorem X19_fallback_replaces_a_run (s : jsstring) :
  let out := basicCleanup (fst (loopWith IGNORE_v2 MAP_SINGLE_v2 (tokens s) [] false)) in
  inferAt out = out
  \/ exists l syms d,
       out = l ++ syms ++ d /\ forallb isSym syms = true
       /\ l <> [] /\ d <> [] /\ inferAt out = l ++ c_at :: d.
Proof.
  cbv zeta. apply inferAt_oneLine.
  unfold oneLine, basicCleanup. apply forallb_forall, Forall_forall.
  do 3 (apply shrinks_Forall; auto with shrink).
  apply Forall_forall, forallb_forall.
  now apply (loopWith_oneLine IGNORE_v2 MAP_SINGLE_v2 MAP_SINGLE_v2_lines).
Qed.

End Fallback.

(** ** The variants against the first one *)

Lemma assoc_not_key {A : Type} (l : list (jsstring * A)) (t : jsstring) :
  ~ In t (map fst l) -> assoc t l = None.
Proof.
  intros H. destruct (assoc t l) as [v|] eqn:E; [|reflexivity].
  apply assoc_In_pair in E. apply (in_map fst) in E. contradiction.
Qed.

Lemma assoc_agree {A : Type} (l1 l2 : list (jsstring * A)) (t : jsstring) :
  (In t (map fst l1 ++ map fst l2) -> assoc t l1 = assoc t l2) ->
  assoc t l1 = assoc t l2.
Proof.
  intros H.
  destruct (in_dec (list_eq_dec N.eq_dec) t (map fst l1 ++ map fst l2)) as [Hin|Hout];
    [exact (H Hin)|].
  rewrite !assoc_not_key; [reflexivity| |];
    intros Hk; apply Hout, in_or_app; [now right | now left].
Qed.

Lemma table_v2_agree (t : jsstring) :
  isNewWord_v2 t = false -> assoc t MAP_SINGLE_v2 = assoc t MAP_SINGLE.
Proof.
  intros Hnew. apply assoc_agree. intros H. vm_compute in H.
  repeat (destruct H as [<-|H]; [reflexivity || discriminate|]). contradiction.
Qed.

Lemma table_v4_agree (t : jsstring) :
  isNewWord_v4 t = false -> assoc t MAP_SINGLE_v4 = assoc t MAP_SINGLE.
Proof.
  intros Hnew. apply assoc_agree. intros H. vm_compute in H.
  repeat (destruct H as [<-|H]; [reflexivity || discriminate|]). contradiction.
Qed.

Lemma ignore_v2_agree (t : jsstring) :
  isNewWord_v2 t = false -> existsb (eqs t) IGNORE_v2 = IGNORE_has t.
Proof.
  intros Hnew. unfold IGNORE_has.
  change IGNORE_v2 with (IGNORE ++ [lit "porfa"]).
  rewrite existsb_app. cbn [existsb].
  unfold isNewWord_v2 in Hnew. repeat (apply orb_false_iff in Hnew as [Hnew ?]).
  now rewrite Hnew, !orb_false_r.
Qed.

Lemma stepWith_agree (tb1 tb2 : list (jsstring * jsstring)) (t out : jsstring)
      (seenAt : bool) :
  assoc t tb1 = assoc t tb2 -> stepWith tb1 t out seenAt = stepWith tb2 t out seenAt.
Proof. intros H. unfold stepWith, tableGet. now rewrite H. Qed.

Lemma loopWith_two (ig : list jsstring) (tb : list (jsstring * jsstring))
      (t next : jsstring) (rest : list jsstring) (out : jsstring) (seenAt : bool) :
  loopWith ig tb (t :: next :: rest) out seenAt
  = if existsb (eqs t) ig then loopWith ig tb (next :: rest) out seenAt
    else if eqs t (lit "guion") && eqs next (lit "bajo")
    then loopWith ig tb rest (out ++ [c_underscore]) seenAt
    else if eqs t (lit "guion") && (eqs next (lit "medio") || eqs next (lit "alto"))
    then loopWith ig tb rest (out ++ [c_hyphen]) seenAt
    else loopWith ig tb (next :: rest) (fst (stepWith tb t out seenAt))
                                       (snd (stepWith tb t out seenAt)).
Proof. now destruct (stepWith tb t out seenAt) eqn:E; cbn [loopWith]; rewrite E. Qed.

Lemma loopWith_one (ig : list jsstring) (tb : list (jsstring * jsstring))
      (t out : jsstring) (seenAt : bool) :
  loopWith ig tb [t] out seenAt
  = if existsb (eqs t) ig then (out, seenAt) else stepWith tb t out seenAt.
Proof. cbn [loopWith]. now destruct (stepWith tb t out seenAt). Qed.

Lemma rewriteTokens_two (t next : jsstring) (rest : list jsstring)
      (out : jsstring) (seenAt : bool) :
  rewriteTokens (t :: next :: rest) out seenAt
  = if IGNORE_has t then rewriteTokens (next :: rest) out seenAt
    else if eqs t (lit "guion") && eqs next (lit "bajo")
    then rewriteTokens rest (out ++ [c_underscore]) seenAt
    else if eqs t (lit "guion") && (eqs next (lit "medio") || eqs next (lit "alto"))
    then rewriteTokens rest (out ++ [c_hyphen]) seenAt
    else rewriteTokens (next :: rest) (fst (rewriteSingle t out seenAt))
                                      (snd (rewriteSingle t out seenAt)).
Proof. now destruct (rewriteSingle t out seenAt) eqn:E; cbn [rewriteTokens]; rewrite E. Qed.

Lemma loopWith_agree (ig1 ig2 : list jsstring) (tb1 tb2 : list (jsstring * jsstring))
      (toks : list jsstring) :
  Forall (fun t => existsb (eqs t) ig1 = existsb (eqs t) ig2
                   /\ assoc t tb1 = assoc t tb2) toks ->
  forall (out : jsstring) (seenAt : bool),
    loopWith ig1 tb1 toks out seenAt = loopWith ig2 tb2 toks out seenAt.
Proof.
  induction toks as [|t|t next rest IH1 IH2] using list_ind2; intros Hall out seenAt.
  - reflexivity.
  - inversion Hall as [|? ? [Hi Ht] _]; subst. rewrite !loopWith_one.
    now rewrite Hi, (stepWith_agree tb1 tb2 t out seenAt Ht).
  - inversion Hall as [|? ? [Hi Ht] Hall1]; subst.
    inversion Hall1 as [|? ? _ Hall2]; subst.
    rewrite !loopWith_two.
    rewrite Hi, (stepWith_agree tb1 tb2 t out seenAt Ht).
    now rewrite !IH1, !IH2.
Qed.

(** With the tables of the first variant the loop is [rewriteTokens]. *)
Lemma loopWith_v1 (toks : list jsstring) :
  forall (out : jsstring) (seenAt : bool),
    fst (loopWith IGNORE MAP_SINGLE toks out seenAt) = rewriteTokens toks out seenAt.
Proof.
  induction toks as [|t|t next rest IH1 IH2] using list_ind2; intros out seenAt.
  - reflexivity.
  - rewrite loopWith_one. cbn [rewriteTokens].
    change (existsb (eqs t) IGNORE) with (IGNORE_has t).
    change (stepWith MAP_SINGLE t out seenAt) with (rewriteSingle t out seenAt).
    destruct (IGNORE_has t); [reflexivity|].
    now destruct (rewriteSingle t out seenAt).
  - rewrite loopWith_two, rewriteTokens_two.
    change (existsb (eqs t) IGNORE) with (IGNORE_has t).
    change (stepWith MAP_SINGLE t out seenAt) with (rewriteSingle t out seenAt).
    destruct (IGNORE_has t); [apply IH1|].
    destruct (eqs t (lit "guion") && eqs next (lit "bajo")); [apply IH2|].
    destruct (eqs t (lit "guion") && _); [apply IH2|]. apply IH1.
Qed.

Lemma MAP_SINGLE_ok : tableValuesOk MAP_SINGLE.
Proof.
  unfold tableValuesOk, MAP_SINGLE. cbn [map].
  repeat (apply Forall_cons; [first [now left | now right]|]). apply Forall_nil.
Qed.

Section VariantsAgree.

Variable unicodeLower : jsstring -> jsstring.
Variable unicodeNFD : jsstring -> jsstring.

Local Abbreviation tokens := (rawTokens unicodeLower unicodeNFD).
Local Abbreviation normalized := (normalizeString unicodeLower unicodeNFD).
Local Abbreviation normalized2 := (normalizeString_v2 unicodeLower unicodeNFD).
Local Abbreviation normalized4 := (normalizeString_v4 unicodeLower unicodeNFD).

(** X20. When an at-word of the first variant was dictated and none of the
    words that only the second variant knows ("porfa", "aroba", "arrova",
    "arzroba") is among the tokens, the second variant gives what the
    first gives: the fallback stays out of the way. *)
Theorem X20_v2_agrees_with_v1 (s : jsstring) :
  forallb (fun t => negb (isNewWord_v2 t)) (tokens s) = true ->
  existsb isAtWord (tokens s) = true ->
  outcome (normalized2 s) = outcome (normalized s).
Proof.
  intros Hnew Hat. unfold normalizeString_v2.
  rewrite (loopWith_agree IGNORE_v2 IGNORE MAP_SINGLE_v2 MAP_SINGLE).
  2:{ apply Forall_forall. intros t Ht. rewrite forallb_forall in Hnew.
      specialize (Hnew t Ht). apply negb_true_iff in Hnew.
      split; [now apply ignore_v2_agree | now apply table_v2_agree]. }
  pose proof (loopWith_v1 (tokens s) [] false) as Hout.
  pose proof (loopWith_at IGNORE MAP_SINGLE MAP_SINGLE_ok (tokens s) [] false eq_refl)
    as Hseen.
  destruct (loopWith IGNORE MAP_SINGLE (tokens s) [] false) as [out seenAt].
  cbn [fst snd] in Hout, Hseen. subst out.
  assert (Hin : includesAt (basicCleanup (rewriteTokens (tokens s) [] false)) = true).
  { rewrite basicCleanup_includesAt, rewriteTokens_at by reflexivity. exact Hat. }
  unfold ensureAt. rewrite Hin. cbn [negb]. reflexivity.
Qed.

(** X21. The fourth variant differs from the first by two more at-words:
    on an input without "arzroba" and "aroba" among its tokens the two give
    the same email, validity, confidence, local part and domain. *)
Theorem X21_v4_agrees_with_v1 (s : jsstring) :
  forallb (fun t => negb (isNewWord_v4 t)) (tokens s) = true ->
  outcome (normalized4 s) = outcome (normalized s).
Proof.
  intros Hnew. unfold normalizeString_v4.
  rewrite (loopWith_agree IGNORE IGNORE MAP_SINGLE_v4 MAP_SINGLE).
  2:{ apply Forall_forall. intros t Ht. rewrite forallb_forall in Hnew.
      specialize (Hnew t Ht). apply negb_true_iff in Hnew.
      split; [reflexivity | now apply table_v4_agree]. }
  now rewrite loopWith_v1.
Qed.

End VariantsAgree.

Lemma X20_v2_agrees_with_v1_witness :
  outcome (normalizeString_v2 (fun s => s) (fun s => s)
             (lit "raul quintano vazquez @ gamail punto com"))
  = outcome (normalizeString (fun s => s) (fun s => s)
               (lit "raul quintano vazquez @ gamail punto com")).
Proof.
  apply X20_v2_agrees_with_v1; reflexivity.
Defined.

Lemma X21_v4_agrees_with_v1_witness :
  outcome (normalizeString_v4 (fun s => s) (fun s => s)
             (lit "ventas guion bajo sur arroba empresa punto com"))
  = outcome (normalizeString (fun s => s) (fun s => s)
               (lit "ventas guion bajo sur arroba empresa punto com")).
Proof.
  apply X21_v4_agrees_with_v1; reflexivity.
Defined.

(** ** The handler of the third variant *)

Section Handler3Properties.

Variable unicodeLower : jsstring -> jsstring.
Variable unicodeNFD : jsstring -> jsstring.
Variable parseText : jsstring -> jsinput + jsstring.

Local Abbreviation handle := (handler unicodeLower unicodeNFD parseText).
Local Abbreviation handle3 := (handler_v3 unicodeLower unicodeNFD parseText).
Local Abbreviation normalized := (normalizeString unicodeLower unicodeNFD).

(** X22. The handler of the third variant never sends the "Empty input"
    object: whatever it sends as a result is the normalisation of a
    non-empty string, with status 200.  The guard of [formatEmailText] is
    dead code behind it. *)
Theorem X22_v3_sends_no_empty_input (req : Request) (r : Result) :
  r_body (handle3 req) = BodyResult r ->
  r_status (handle3 req) = 200%nat
  /\ exists s, s <> [] /\ r = Normalized (normalized s).
Proof.
  unfold handler_v3.
  destruct (eqs (method req) (lit "OPTIONS")); [discriminate|].
  destruct (readText_v3 parseText req) as [v|e|]; try discriminate.
  destruct v as [| b | [|c s]]; cbn [falsy typeofString negb orb nonEmpty];
    rewrite ?orb_true_r; cbn [r_body r_status]; try discriminate.
  intros [= <-]. split; [reflexivity|].
  exists (c :: s). split; [discriminate | reflexivity].
Qed.

(** X23. A POST whose body was not parsed by the host and is not JSON is
    answered 400 by the third variant, which catches the error of the
    parser by itself, and 500 by the first. *)
Theorem X23_malformed_json (req : Request) (raw e : jsstring) :
  method req = lit "POST" -> body req = None -> stream req = inl raw ->
  raw <> [] -> parseText raw = inr e ->
  r_status (handle3 req) = 400%nat
  /\ r_status (handle req) = 500%nat
  /\ r_body (handle req) = BodyFailure (lit "Internal Server Error") e.
Proof.
  intros Hm Hb Hs Hraw He.
  unfold handler_v3, handler, readText_v3, readText.
  rewrite Hm, Hb, Hs. cbn [eqs lit]. 
  change (eqs (lit "POST") (lit "OPTIONS")) with false.
  change (eqs (lit "POST") (lit "GET")) with false.
  change (eqs (lit "POST") (lit "POST")) with true. cbv iota.
  destruct raw as [|c raw']; [contradiction|]. cbn [nonEmpty].
  rewrite He. repeat split.
Qed.

End Handler3Properties.

Lemma X22_v3_sends_no_empty_input_witness :
  let req := mkRequest (lit "GET") (Some (InString (lit "ana arroba x punto es")))
               None (inl []) in
  r_status (handler_v3 (fun s => s) (fun s => s) (fun _ => inl InAbsent) req) = 200%nat
  /\ exists s, s <> []
       /\ Normalized (normalizeString (fun s => s) (fun s => s)
                        (lit "ana arroba x punto es"))
          = Normalized (normalizeString (fun s => s) (fun s => s) s).
Proof.
  exact (X22_v3_sends_no_empty_input (fun s => s) (fun s => s) (fun _ => inl InAbsent)
           (mkRequest (lit "GET") (Some (InString (lit "ana arroba x punto es")))
              None (inl []))
           _ eq_refl).
Defined.

Lemma X23_malformed_json_witness :
  let req := mkRequest (lit "POST") None None (inl (lit "{text:")) in
  let parse := fun _ : jsstring => @inr jsinput jsstring (lit "SyntaxError") in
  r_status (handler_v3 (fun s => s) (fun s => s) parse req) = 400%nat
  /\ r_status (handler (fun s => s) (fun s => s) parse req) = 500%nat
  /\ r_body (handler (fun s => s) (fun s => s) parse req)
     = BodyFailure (lit "Internal Server Error") (lit "SyntaxError").
Proof.
  refine (X23_malformed_json (fun s => s) (fun s => s)
            (fun _ => inr (lit "SyntaxError"))
            (mkRequest (lit "POST") None None (inl (lit "{text:")))
            (lit "{text:") (lit "SyntaxError") eq_refl eq_refl eq_refl _ eq_refl).
  discriminate.
Defined.
